(** * envparser: populating a struct from the environment

    A shallow embedding of [parser.go] (package [envparser]): the
    reflective walk [Parse] over the fields of a struct and the
    type-directed conversion [setValueFromEnv], together with the
    library routines of [strconv], [strings] and [net/url] that decide
    what a raw string converts to. *)

From Stdlib Require Import ZArith Ascii String List Bool Lia.
From stdpp Require Import base option list strings pretty gmap.

Import ListNotations.
Local Open Scope string_scope.
Local Open Scope list_scope.
Local Open Scope Z_scope.

(** ** Bytes *)

Definition byte_val (c : ascii) : Z := Z.of_nat (nat_of_ascii c).

Definition is_byte (c : ascii) (n : Z) : bool := byte_val c =? n.

(** ['0' <= c && c <= '9'] *)
Definition is_digit (c : ascii) : bool :=
  (48 <=? byte_val c) && (byte_val c <=? 57).

(** [lower(c)] of strconv: [c | ('x' - 'X')]. *)
Definition lower (c : ascii) : Z := Z.lor (byte_val c) 32.

(** ** strconv

    Go's [strconv] package as far as [parser.go] calls it.  The package
    belongs to the standard library, not to the repository; the
    definitions follow its integer and boolean parsers statement by
    statement, for the base 10 that every call passes. *)

Module strconv.

(** [strconv.IntSize]: the size of [int] on the 64-bit targets. *)
Definition IntSize : Z := 64.

Inductive Err : Type :=
| ErrSyntax                 (* "invalid syntax" *)
| ErrRange                  (* "value out of range" *)
| ErrBitSize (bitSize : Z). (* "invalid bit size n" *)

(** [*strconv.NumError] *)
Record NumError : Type := mkNumError { Func : string; Num : string; Err_ : Err }.

Definition syntaxError (fn str : string) : NumError := mkNumError fn str ErrSyntax.
Definition rangeError (fn str : string) : NumError := mkNumError fn str ErrRange.
Definition bitSizeError (fn str : string) (bitSize : Z) : NumError :=
  mkNumError fn str (ErrBitSize bitSize).

Definition maxUint64 : Z := 2 ^ 64 - 1.

Definition base : Z := 10.

(** The digit loop of [ParseUint], for the base 10 every call of the
    parser passes.  [n] is the [uint64] accumulator; the loop leaves with
    [(maxVal, ErrRange)] when the next digit overflows and with
    [(0, ErrSyntax)] on a byte that is no digit of the base. *)
Fixpoint parseUintLoop (s : string) (n cutoff maxVal : Z) : Z * option Err :=
  match s with
  | EmptyString => (n, None)
  | String c rest =>
      let d :=
        if is_digit c then Some (byte_val c - 48)
        else if (97 <=? lower c) && (lower c <=? 122) then Some (lower c - 97 + 10)
        else None in
      match d with
      | None => (0, Some ErrSyntax)
      | Some d =>
          if d >=? base then (0, Some ErrSyntax)
          else if n >=? cutoff then (maxVal, Some ErrRange)
          else
            let n' := (n * base) mod 2 ^ 64 in
            let n1 := (n' + d) mod 2 ^ 64 in
            if (n1 <? n') || (n1 >? maxVal) then (maxVal, Some ErrRange)
            else parseUintLoop rest n1 cutoff maxVal
      end
  end.

(** [strconv.ParseUint(s, 10, bitSize)] *)
Definition ParseUint (s : string) (bitSize : Z) : Z * option NumError :=
  let fnParseUint := "ParseUint" in
  if String.eqb s "" then (0, Some (syntaxError fnParseUint s))
  else if (bitSize <? 0) || (bitSize >? 64) then
    (0, Some (bitSizeError fnParseUint s bitSize))
  else
    let bitSize := if bitSize =? 0 then IntSize else bitSize in
    let cutoff := maxUint64 / 10 + 1 in
    let maxVal := 2 ^ bitSize - 1 in
    match parseUintLoop s 0 cutoff maxVal with
    | (n, None) => (n, None)
    | (n, Some e) => (n, Some (mkNumError fnParseUint s e))
    end.

(** [strconv.ParseInt(s, 10, bitSize)] *)
Definition ParseInt (s0 : string) (bitSize : Z) : Z * option NumError :=
  let fnParseInt := "ParseInt" in
  match s0 with
  | EmptyString => (0, Some (syntaxError fnParseInt s0))
  | String c rest =>
      let '(neg, s) :=
        if is_byte c 43 then (false, rest)
        else if is_byte c 45 then (true, rest)
        else (false, s0) in
      let '(un, err) := ParseUint s bitSize in
      let continue :=
        let bitSize := if bitSize =? 0 then IntSize else bitSize in
        let cutoff := 2 ^ (bitSize - 1) in
        if negb neg && (un >=? cutoff) then (cutoff - 1, Some (rangeError fnParseInt s0))
        else if neg && (un >? cutoff) then (- cutoff, Some (rangeError fnParseInt s0))
        else (if neg then - un else un, None) in
      match err with
      | Some e =>
          match Err_ e with
          | ErrRange => continue
          | _ => (0, Some (mkNumError fnParseInt s0 (Err_ e)))
          end
      | None => continue
      end
  end.

(** The fast path of [Atoi]: no overflow is possible on at most 18 bytes,
    so the digits are summed directly. *)
Fixpoint atoiLoop (s : string) (n : Z) : option Z :=
  match s with
  | EmptyString => Some n
  | String ch rest =>
      let ch := (byte_val ch - 48) mod 256 in
      if ch >? 9 then None else atoiLoop rest (n * 10 + ch)
  end.

(** [strconv.Atoi(s)] *)
Definition Atoi (s : string) : Z * option NumError :=
  let fnAtoi := "Atoi" in
  let sLen := Z.of_nat (String.length s) in
  if (0 <? sLen) && (sLen <? 19) then
    match s with
    | EmptyString => (0, Some (syntaxError fnAtoi s))
    | String c rest =>
        let signed := is_byte c 45 || is_byte c 43 in
        let digits := if signed then rest else s in
        if signed && (Z.of_nat (String.length digits) <? 1) then
          (0, Some (syntaxError fnAtoi s))
        else
          match atoiLoop digits 0 with
          | None => (0, Some (syntaxError fnAtoi s))
          | Some n => (if is_byte c 45 then - n else n, None)
          end
    end
  else
    match ParseInt s 0 with
    | (i64, Some e) => (i64, Some (mkNumError fnAtoi (Num e) (Err_ e)))
    | (i64, None) => (i64, None)
    end.

(** [strconv.ParseBool(str)] *)
Definition ParseBool (str : string) : bool * option NumError :=
  if existsb (String.eqb str) ["1"; "t"; "T"; "TRUE"; "true"; "True"] then (true, None)
  else if existsb (String.eqb str) ["0"; "f"; "F"; "FALSE"; "false"; "False"] then (false, None)
  else (false, Some (syntaxError "ParseBool" str)).

End strconv.


(** ** strings

    Go's [strings] package as far as [parser.go] and the query parser
    call it, on strings as sequences of bytes. *)

Module strings.

(** [strings.Split(s, sep)] for a one-byte separator: the pieces of [s]
    between the occurrences of [sep]; one more piece than separators, so
    the empty string gives one empty piece. *)
Fixpoint Split (s : string) (sep : ascii) : list string :=
  match s with
  | EmptyString => [EmptyString]
  | String c rest =>
      if Ascii.eqb c sep then EmptyString :: Split rest sep
      else
        match Split rest sep with
        | piece :: pieces => String c piece :: pieces
        | [] => [String c EmptyString]
        end
  end.

(** [strings.Cut(s, sep)] for a one-byte separator. *)
Fixpoint Cut (s : string) (sep : ascii) : string * string * bool :=
  match s with
  | EmptyString => (EmptyString, EmptyString, false)
  | String c rest =>
      if Ascii.eqb c sep then (EmptyString, rest, true)
      else let '(before, after, found) := Cut rest sep in (String c before, after, found)
  end.

(** [strings.Contains(s, sep)] for a one-byte [sep]. *)
Fixpoint ContainsByte (s : string) (sep : ascii) : bool :=
  match s with
  | EmptyString => false
  | String c rest => Ascii.eqb c sep || ContainsByte rest sep
  end.

(** [unicode.IsSpace] on the UTF-8 encoding of a rune: the one-byte
    spaces ['\t' '\n' '\v' '\f' '\r' ' '], the two-byte U+0085 and U+00A0,
    and the three-byte U+1680, U+2000..U+200A, U+2028, U+2029, U+202F,
    U+205F and U+3000. *)
Definition space1 (a : Z) : bool :=
  ((9 <=? a) && (a <=? 13)) || (a =? 32).

Definition space2 (a b : Z) : bool :=
  (a =? 194) && ((b =? 133) || (b =? 160)).

Definition space3 (a b c : Z) : bool :=
  ((a =? 225) && (b =? 154) && (c =? 128))
  || ((a =? 226) && (b =? 128)
      && (((128 <=? c) && (c <=? 138)) || (c =? 168) || (c =? 169) || (c =? 175)))
  || ((a =? 226) && (b =? 129) && (c =? 159))
  || ((a =? 227) && (b =? 128) && (c =? 128)).

(** Drops the white-space runes at the head of a byte sequence.  With
    [back] the sequence is read from its end, each rune's bytes arriving
    last byte first. *)
Fixpoint trimHead (back : bool) (l : list ascii) : list ascii :=
  match l with
  | [] => []
  | c1 :: r1 =>
      if space1 (byte_val c1) then trimHead back r1
      else
        match r1 with
        | [] => l
        | c2 :: r2 =>
            if (if back then space2 (byte_val c2) (byte_val c1)
                else space2 (byte_val c1) (byte_val c2))
            then trimHead back r2
            else
              match r2 with
              | [] => l
              | c3 :: r3 =>
                  if (if back then space3 (byte_val c3) (byte_val c2) (byte_val c1)
                      else space3 (byte_val c1) (byte_val c2) (byte_val c3))
                  then trimHead back r3
                  else l
              end
        end
  end.

(** [strings.TrimSpace(s)] *)
Definition TrimSpace (s : string) : string :=
  let left := trimHead false (list_ascii_of_string s) in
  string_of_list_ascii (rev (trimHead true (rev left))).

End strings.

(** ** Errors *)

(** A Go [error] as the parser meets it: the text of [errors.New] and
    [fmt.Errorf], the [*strconv.NumError] of the integer and boolean
    parsers, the [url.EscapeError] of the query parser.  An error of the
    [time], [json], [xml] and [base64] packages and of
    [strconv.ParseFloat] is carried by its text. *)
Inductive error : Type :=
| errorString (msg : string)
| NumError (e : strconv.NumError)
| EscapeError (s : string).

Definition dquote : string := String (ascii_of_nat 34) EmptyString.
Definition newline : string := String (ascii_of_nat 10) EmptyString.

(** ** net/url

    The query parser behind the [form] encoding.  [net/url] belongs to
    the standard library, not to the repository. *)

Module url.

Definition ishex (c : ascii) : bool :=
  let b := byte_val c in
  ((48 <=? b) && (b <=? 57)) || ((97 <=? b) && (b <=? 102)) || ((65 <=? b) && (b <=? 70)).

Definition unhex (c : ascii) : Z :=
  let b := byte_val c in
  if (48 <=? b) && (b <=? 57) then b - 48
  else if (97 <=? b) && (b <=? 102) then b - 97 + 10
  else if (65 <=? b) && (b <=? 70) then b - 65 + 10
  else 0.

Definition percent : ascii := ascii_of_nat 37.
Definition plus : ascii := ascii_of_nat 43.
Definition space : ascii := ascii_of_nat 32.

Definition take3 (s : string) : string := String.substring 0 3 s.

(** Modelled from the spec: [url.QueryUnescape] of Go's [net/url], which
    is not among the repository's sources: the inverse of URL
    form-encoding, ["%XX"] to the byte [0xXX] and ['+'] to a space,
    failing on a ['%'] that two hexadecimal digits do not follow. *)
Fixpoint QueryUnescape (s : string) : string * option error :=
  match s with
  | EmptyString => (EmptyString, None)
  | String c rest =>
      if Ascii.eqb c percent then
        match rest with
        | String h1 (String h2 rest') =>
            if ishex h1 && ishex h2 then
              match QueryUnescape rest' with
              | (t, None) =>
                  (String (ascii_of_nat (Z.to_nat (Z.lor (Z.shiftl (unhex h1) 4) (unhex h2)))) t,
                   None)
              | (_, Some e) => (EmptyString, Some e)
              end
            else (EmptyString, Some (EscapeError (take3 s)))
        | _ => (EmptyString, Some (EscapeError (take3 s)))
        end
      else
        match QueryUnescape rest with
        | (t, None) => (String (if Ascii.eqb c plus then space else c) t, None)
        | (_, Some e) => (EmptyString, Some e)
        end
  end.

Definition semicolonError : error := errorString "invalid semicolon separator in query".

(** Modelled from the spec: the turn of [url.ParseQuery] for one
    ['&']-separated piece of the query; [m] is the mapping built so far
    and [err] the error kept so far.  A piece with a [';'] is an error, an
    empty piece is passed over, any other piece is cut at its first ['=']
    and both sides are decoded. *)
Definition parsePair (st : gmap string (list string) * option error) (pair : string)
  : gmap string (list string) * option error :=
  let '(m, err) := st in
  if strings.ContainsByte pair ";" then (m, Some semicolonError)
  else if String.eqb pair "" then (m, err)
  else
    let '(key, value, _) := strings.Cut pair "=" in
    match QueryUnescape key with
    | (_, Some err1) => (m, if err is None then Some err1 else err)
    | (key, None) =>
        match QueryUnescape value with
        | (_, Some err1) => (m, if err is None then Some err1 else err)
        | (value, None) => (<[key := default [] (m !! key) ++ [value]]> m, err)
        end
    end.

(** Modelled from the spec: [url.ParseQuery] of Go's [net/url], which is
    not among the repository's sources: the raw string is read as
    ['&']-separated [key=value] pairs, each side URL-decoded, into a
    mapping from a key to the list of its values in order of appearance.
    A piece holding a [';'] and a malformed escape are errors; the
    mapping of the well-formed pieces comes back with the error. *)
Definition ParseQuery (query : string) : gmap string (list string) * option error :=
  fold_left parsePair (strings.Split query "&") (∅, None).

End url.

(** ** Types, values and field descriptors *)

(** The dynamic type of a field, as far as the type switch of
    [setValueFromEnv] and [reflect]'s assignability tell types apart. *)
Inductive ty : Type :=
| TDuration | TTime
| TInt | TInt32 | TInt64
| TUint | TUint32 | TUint64
| TFloat32 | TFloat64
| TBool | TString
| TStrings
| TInts | TInt32s | TInt64s
| TFloat32s | TFloat64s
| TUints | TUint32s | TUint64s
| TStruct                (* a struct type other than [time.Time] *)
| TValues                (* [url.Values], [map[string][]string] *)
| TBytes                 (* [[]byte] and the types it is assignable to *)
| TOther (name : string). (* any other type that is no interface *)

Inductive Kind : Type := Struct | Ptr | OtherKind.

(** [reflect.Type.Kind], up to what [Parse] asks of it; [time.Time] is a
    struct. *)
Definition Kind_of (t : ty) : Kind :=
  match t with
  | TStruct | TTime => Struct
  | _ => OtherKind
  end.

(** [reflect.StructField] with the two tags [Parse] reads;
    [Tag.Get] gives the empty string for a tag that is not there.
    [Exported] stands for [field.CanSet()]: the struct is reached through
    a pointer, so a field can be set exactly when it is exported. *)
Record StructField : Type := mkField {
  Name : string;
  Type_ : ty;
  Tag_env : string;
  Tag_encoding : string;
  Anonymous : bool;
  Exported : bool
}.

(** The value a field holds.  Integers are kept in the range of their
    type, a [float] by its IEEE-754 bits, a [time.Time] by an instant;
    the fields of a [time.Time] are all unexported and are left out. *)
#[warnings="-register-all"]
Inductive value : Type :=
| VDuration (d : Z)
| VTime (t : Z)
| VInt (i : Z)
| VUint (u : Z)
| VFloat (f : Z)
| VBool (b : bool)
| VString (s : string)
| VStrings (l : list string)
| VInts (l : list Z)
| VUints (l : list Z)
| VFloats (l : list Z)
| VValues (m : gmap string (list string))
| VBytes (b : string)
| VStruct (fields : list (StructField * value))
| VOther (repr : string).

Definition CanSet (f : StructField) : bool := Exported f.

(** Conversions [int32(x)] and [uint32(x)]: the low 32 bits. *)
Definition int32 (x : Z) : Z := (x + 2 ^ 31) mod 2 ^ 32 - 2 ^ 31.
Definition uint32 (x : Z) : Z := x mod 2 ^ 32.

(** [reflect.Value.SetInt] and [SetUint] store [x] converted to the
    type of the field; neither checks for overflow. *)
Definition SetInt (t : ty) (x : Z) : value :=
  match t with
  | TInt32 => VInt (int32 x)
  | _ => VInt x
  end.

Definition SetUint (t : ty) (x : Z) : value :=
  match t with
  | TUint32 => VUint (uint32 x)
  | _ => VUint x
  end.

(** The library routines the parser calls and this development does
    not open: they are parameters of the model. A decoder of [json] or
    [xml] receives the address of the field, so it is a function of the
    value the field holds to the value it leaves there. *)
Record Libs : Type := mkLibs {
  time_ParseDuration : string -> Z * option error;
  time_Parse_RFC3339 : string -> Z * option error;
  strconv_ParseFloat : string -> Z -> Z * option error;
  float32 : Z -> Z;
  strconv_Quote : string -> string;
  json_Unmarshal : string -> ty -> value -> value * option error;
  xml_Unmarshal : string -> ty -> value -> value * option error;
  base64_DecodeString : string -> string * option error
}.

(** What a call does: it returns its [error] (possibly [nil]) or
    panics. *)
Inductive outcome : Type :=
| Returns (err : option error)
| Panics.

(** The arguments [Parse] can be given through [interface{}]. *)
Inductive target : Type :=
| PtrTo (t : ty) (v : value)   (* a pointer to a variable of type [t] holding [v] *)
| NilPtr (t : ty)              (* a nil pointer *)
| NotPtr (t : ty) (v : value). (* anything else, a nil interface included *)

(** ** The parser *)

Section Parser.

Context (L : Libs).

(** [err.Error()] *)
Definition Error (e : error) : string :=
  match e with
  | errorString msg => msg
  | NumError e =>
      "strconv." +:+ strconv.Func e +:+ ": parsing " +:+ strconv_Quote L (strconv.Num e)
      +:+ ": " +:+
      match strconv.Err_ e with
      | strconv.ErrSyntax => "invalid syntax"
      | strconv.ErrRange => "value out of range"
      | strconv.ErrBitSize n => "invalid bit size " +:+ pretty n
      end
  | EscapeError s => "invalid URL escape " +:+ strconv_Quote L s
  end.

Definition numErr (r : Z * option strconv.NumError) : Z * option error :=
  (r.1, NumError <$> r.2).

(** The loop every numeric slice case runs:
    [for i, v := range numStrings { n, err := parse(TrimSpace(v)); if err
    != nil { return err }; out[i] = cast(n) }]. *)
Fixpoint fillSlice (parse : string -> Z * option error) (cast : Z -> Z)
    (numStrings : list string) (i : nat) (out : list Z) : list Z + error :=
  match numStrings with
  | [] => inl out
  | v :: rest =>
      match parse (strings.TrimSpace v) with
      | (_, Some err) => inr err
      | (n, None) => fillSlice parse cast rest (S i) (<[i := cast n]> out)
      end
  end.

(** A numeric slice case as a whole: split, [make] a slice of that
    length, fill it, and only then [field.Set] it. *)
Definition setSlice (field : value) (mk : list Z -> value)
    (parse : string -> Z * option error) (cast : Z -> Z) (val : string)
  : value * outcome :=
  let numStrings := strings.Split val "," in
  match fillSlice parse cast numStrings 0 (replicate (length numStrings) 0) with
  | inr err => (field, Returns (Some err))
  | inl out => (mk out, Returns None)
  end.

(** [setValueFromEnv(field, fieldType, val)]: the value the field holds
    afterwards and what the call does. *)
Definition setValueFromEnv (field : value) (fieldType : StructField) (val : string)
  : value * outcome :=
  match Type_ fieldType with
  | TDuration =>
      match time_ParseDuration L val with
      | (_, Some err) => (field, Returns (Some err))
      | (d, None) => (VDuration d, Returns None)
      end
  | TTime =>
      match time_Parse_RFC3339 L val with
      | (_, Some err) => (field, Returns (Some err))
      | (t, None) => (VTime t, Returns None)
      end
  | TInt | TInt32 | TInt64 =>
      match strconv.Atoi val with
      | (_, Some err) => (field, Returns (Some (NumError err)))
      | (i, None) => (SetInt (Type_ fieldType) i, Returns None)
      end
  | TUint | TUint32 | TUint64 =>
      match strconv.ParseUint val 64 with
      | (_, Some err) => (field, Returns (Some (NumError err)))
      | (i, None) => (SetUint (Type_ fieldType) i, Returns None)
      end
  | TFloat32 | TFloat64 =>
      match strconv_ParseFloat L val 64 with
      | (_, Some err) => (field, Returns (Some err))
      | (f, None) =>
          (VFloat (match Type_ fieldType with TFloat32 => float32 L f | _ => f end),
           Returns None)
      end
  | TBool =>
      match strconv.ParseBool val with
      | (_, Some err) => (field, Returns (Some (NumError err)))
      | (b, None) => (VBool b, Returns None)
      end
  | TString => (VString val, Returns None)
  | TStrings => (VStrings (strings.Split val ","), Returns None)
  | TInts => setSlice field VInts (fun s => numErr (strconv.Atoi s)) id val
  | TInt32s => setSlice field VInts (fun s => numErr (strconv.Atoi s)) int32 val
  | TInt64s => setSlice field VInts (fun s => numErr (strconv.ParseInt s 64)) id val
  | TFloat32s => setSlice field VFloats (fun s => strconv_ParseFloat L s 32) (float32 L) val
  | TFloat64s => setSlice field VFloats (fun s => strconv_ParseFloat L s 64) id val
  | TUints => setSlice field VUints (fun s => numErr (strconv.ParseUint s 64)) id val
  | TUint32s => setSlice field VUints (fun s => numErr (strconv.ParseUint s 32)) uint32 val
  | TUint64s => setSlice field VUints (fun s => numErr (strconv.ParseUint s 64)) id val
  | TStruct | TValues | TBytes | TOther _ =>
      let encoding := Tag_encoding fieldType in
      if String.eqb encoding "json" then
        let '(field', err) := json_Unmarshal L val (Type_ fieldType) field in
        (field', Returns err)
      else if String.eqb encoding "xml" then
        let '(field', err) := xml_Unmarshal L val (Type_ fieldType) field in
        (field', Returns err)
      else if String.eqb encoding "form" then
        match url.ParseQuery val with
        | (_, Some err) => (field, Returns (Some err))
        | (parsed, None) =>
            match Type_ fieldType with
            | TValues => (VValues parsed, Returns None)
            | _ => (field, Panics)
            end
        end
      else if String.eqb encoding "base64" then
        match base64_DecodeString L val with
        | (_, Some err) => (field, Returns (Some err))
        | (decoded, None) =>
            match Type_ fieldType with
            | TBytes => (VBytes decoded, Returns None)
            | _ => (field, Panics)
            end
        end
      else (field, Returns None)
  end.

(** *** The walk over the fields *)

Context (environ : gmap string string).

(** [os.LookupEnv] *)
Definition LookupEnv (key : string) : option string := environ !! key.

Definition invalidTarget : error := errorString "target must be a pointer to a struct".

(** [fmt.Errorf("missing %s environment", envKey)] *)
Definition missingKey (envKey : string) : error :=
  errorString ("missing " +:+ envKey +:+ " environment").

(** [fmt.Errorf("env '%s': %v", envKey, err)] *)
Definition wrapKey (envKey : string) (err : error) : error :=
  errorString ("env '" +:+ envKey +:+ "': " +:+ Error err).

Definition banner : string := "error parsing environment to struct:" +:+ newline.

(** The [strings.Builder] filled from [errs]. *)
Definition buildMessage (errs : list error) : string :=
  fold_left (fun builder err => builder +:+ (Error err +:+ newline)) errs banner.

(** Lines 60 to 69: what [Parse] returns once the loop is through. *)
Definition report (errs : list error) : option error :=
  if (0 <? Z.of_nat (length errs)) then Some (errorString (buildMessage errs)) else None.

(** [envKey == "" || envKey == "-"] *)
Definition skipKey (envKey : string) : bool :=
  String.eqb envKey "" || String.eqb envKey "-".

(** How the loop over the fields ends: through its last field, with the
    errors appended on the way, or at a [return] inside its body, or in
    a panic of a [reflect] setter. *)
Inductive flow : Type :=
| Through (errs : list error)
| Left (err : error)
| Panicked.

(** The state the walk works on: the fields of the struct, mutated in
    place, and the keys looked up in the environment so far, in order. *)
Definition walked : Type := flow * list (StructField * value) * list string.

(** [continue]: the loop goes on to the next field; [w] is the walk of
    the fields that follow, [field'] what the current field holds now and
    [keys] what its turn looked up. *)
Definition carryOn (fieldType : StructField) (field' : value) (keys : list string)
    (w : walked) : walked :=
  let '(fl, rest', keys') := w in (fl, (fieldType, field') :: rest', keys ++ keys').

Section Fields.

(** The call [Parse(field.Addr().Interface())] of line 40, on the
    type and the value of the field. *)
Variable recurse : ty -> value -> outcome * value * list string.

(** The loop of lines 27 to 58 from field [i] on: [fields] are the
    fields not yet visited, [errs] the slice of errors so far. *)
Fixpoint parseFields (fields : list (StructField * value)) (errs : list error) : walked :=
  match fields with
  | [] => (Through errs, [], [])
  | (fieldType, field) :: rest =>
      let continue (field' : value) (errs' : list error) (keys : list string) : walked :=
        carryOn fieldType field' keys (parseFields rest errs') in
      if negb (CanSet fieldType) then continue field errs []
      else
        let envKey := Tag_env fieldType in
        if Anonymous fieldType
           || ((if Kind_of (Type_ fieldType) is Struct then true else false) && skipKey envKey)
        then
          match recurse (Type_ fieldType) field with
          | (Returns None, field', keys) => continue field' errs keys
          | (Returns (Some err), field', keys) => (Left err, (fieldType, field') :: rest, keys)
          | (Panics, field', keys) => (Panicked, (fieldType, field') :: rest, keys)
          end
        else if skipKey envKey then continue field errs []
        else
          match LookupEnv envKey with
          | None => (Left (missingKey envKey), fields, [envKey])
          | Some val =>
              match setValueFromEnv field fieldType val with
              | (field', Returns None) => continue field' errs [envKey]
              | (field', Returns (Some err)) =>
                  continue field' (errs ++ [wrapKey envKey err]) [envKey]
              | (field', Panics) => (Panicked, (fieldType, field') :: rest, [envKey])
              end
          end
  end.

End Fields.

Definition finish (fl : flow) : outcome :=
  match fl with
  | Through errs => Returns (report errs)
  | Left err => Returns (Some err)
  | Panicked => Panics
  end.

(** [Parse] past the test of line 19 on the kind of the pointer: [t]
    and [v] are the type and the value of [val.Elem()].  It gives what
    the call does, the value left behind the pointer and the keys looked
    up.  A struct whose fields are all unexported, as [time.Time], has no
    field to visit. *)
Fixpoint ParseElem (t : ty) (v : value) {struct v} : outcome * value * list string :=
  match Kind_of t with
  | Struct =>
      match v with
      | VStruct fields =>
          let '(fl, fields', keys) := parseFields ParseElem fields [] in
          (finish fl, VStruct fields', keys)
      | _ => (Returns None, v, [])
      end
  | _ => (Returns (Some invalidTarget), v, [])
  end.

(** [Parse(target)] *)
Definition Parse (tg : target) : outcome * target * list string :=
  match tg with
  | PtrTo t v =>
      let '(r, v', keys) := ParseElem t v in (r, PtrTo t v', keys)
  | NilPtr _ | NotPtr _ _ => (Returns (Some invalidTarget), tg, [])
  end.

End Parser.

Arguments Parse L environ tg : assert.
Arguments ParseElem L environ t v : assert.

(** ** Running the parser *)

(** An instance of the library parameters for running the parser on
    inputs that do not reach them: each routine left as a parameter
    refuses its input, and [Quote] wraps a string of plain printable
    bytes in double quotes. *)
Definition refuse {A : Type} (zero : A) (msg : string) : A * option error :=
  (zero, Some (errorString msg)).

Definition closedLibs : Libs := {|
  time_ParseDuration := fun s => refuse 0 "time: invalid duration";
  time_Parse_RFC3339 := fun s => refuse 0 "parsing time: cannot parse";
  strconv_ParseFloat := fun s bitSize => refuse 0 "strconv.ParseFloat: invalid syntax";
  float32 := fun f => f;
  strconv_Quote := fun s => dquote +:+ s +:+ dquote;
  json_Unmarshal := fun s t v => (v, Some (errorString "invalid character"));
  xml_Unmarshal := fun s t v => (v, Some (errorString "EOF"));
  base64_DecodeString := fun s => refuse EmptyString "illegal base64 data"
|}.

(** A field with the tag [env:"key"]. *)
Definition envField (name : string) (t : ty) (key : string) : StructField :=
  mkField name t key EmptyString false true.

(** ** Notions the properties are stated with *)

(** The types the type switch of [setValueFromEnv] has a case for. *)
Definition builtin (t : ty) : bool :=
  match t with
  | TStruct | TValues | TBytes | TOther _ => false
  | _ => true
  end.

(** The values of the [encoding] tag the inner switch has a case for. *)
Definition recognised (encoding : string) : bool :=
  existsb (String.eqb encoding) ["json"; "xml"; "form"; "base64"].

(** The argument is a non-nil pointer to a struct. *)
Definition pointsToStruct (tg : target) : bool :=
  match tg with
  | PtrTo t _ => if Kind_of t is Struct then true else false
  | _ => false
  end.

(** The condition of line 39: the field is walked as a nested struct. *)
Definition nested (f : StructField) : bool :=
  Anonymous f || ((if Kind_of (Type_ f) is Struct then true else false) && skipKey (Tag_env f)).


(** The value of a run of decimal digits read after [acc]; there is
    none when a byte is no digit. *)
Fixpoint digitsValue (s : string) (acc : Z) : option Z :=
  match s with
  | EmptyString => Some acc
  | String c rest =>
      if is_digit c then digitsValue rest (acc * 10 + (byte_val c - 48)) else None
  end.

(** The number a string denotes in base 10 without a sign: one decimal
    digit or more. *)
Definition unsignedDecimal (s : string) : option Z :=
  match s with
  | EmptyString => None
  | _ => digitsValue s 0
  end.

(** The number a string denotes in base 10: an optional ['+'] or ['-']
    and then one decimal digit or more. *)
Definition signedDecimal (s : string) : option Z :=
  match s with
  | EmptyString => None
  | String c rest =>
      if is_byte c 45 then Z.opp <$> unsignedDecimal rest
      else if is_byte c 43 then unsignedDecimal rest
      else unsignedDecimal s
  end.

(** The conversion of a sequence in the words of the specification:
    each element is converted by [rule] in order, and the cause of the
    first element that fails is the result. *)
Fixpoint convertEach (rule : string -> Z * option error) (elems : list string)
  : list Z + error :=
  match elems with
  | [] => inl []
  | e :: rest =>
      match rule e with
      | (_, Some cause) => inr cause
      | (n, None) =>
          match convertEach rule rest with
          | inl ns => inl (n :: ns)
          | inr cause => inr cause
          end
      end
  end.

(** An element rule: parse, then convert to the element type. *)
Definition elemRule (parse : string -> Z * option error) (cast : Z -> Z)
  : string -> Z * option error :=
  fun s => let '(n, err) := parse s in (cast n, err).

(** The element rule of each numeric slice type and the slice value it
    builds. *)
Definition sliceRule (L : Libs) (t : ty)
  : option ((string -> Z * option error) * (list Z -> value)) :=
  match t with
  | TInts => Some (elemRule (fun s => numErr (strconv.Atoi s)) id, VInts)
  | TInt32s => Some (elemRule (fun s => numErr (strconv.Atoi s)) int32, VInts)
  | TInt64s => Some (elemRule (fun s => numErr (strconv.ParseInt s 64)) id, VInts)
  | TFloat32s => Some (elemRule (fun s => strconv_ParseFloat L s 32) (float32 L), VFloats)
  | TFloat64s => Some (elemRule (fun s => strconv_ParseFloat L s 64) id, VFloats)
  | TUints => Some (elemRule (fun s => numErr (strconv.ParseUint s 64)) id, VUints)
  | TUint32s => Some (elemRule (fun s => numErr (strconv.ParseUint s 32)) uint32, VUints)
  | TUint64s => Some (elemRule (fun s => numErr (strconv.ParseUint s 64)) id, VUints)
  | _ => None
  end.

(** [encoding/xml] on one document.  Decoding
    [<Env><Field>x</Field><Count>y</Count></Env>] into a struct with a
    string field [Field] and an integer field [Count], [xml.Unmarshal]
    stores ["x"] in [Field] when it reads that element and then returns
    the [strconv.ParseInt] error of ["y"]: it decodes element by element,
    straight into the struct behind the pointer.  Every other input is
    refused as in [closedLibs]. *)
Definition xmlDocument : string := "<Env><Field>x</Field><Count>y</Count></Env>".

Definition xmlOnDocument (s : string) (t : ty) (v : value) : value * option error :=
  match v with
  | VStruct [(f1, VString _); (f2, VInt count)] =>
      if String.eqb s xmlDocument && String.eqb (Name f1) "Field" && String.eqb (Name f2) "Count"
      then (VStruct [(f1, VString "x"); (f2, VInt count)],
            Some (NumError (strconv.syntaxError "ParseInt" "y")))
      else (v, Some (errorString "EOF"))
  | _ => (v, Some (errorString "EOF"))
  end.

Definition xmlLibs : Libs := {|
  time_ParseDuration := time_ParseDuration closedLibs;
  time_Parse_RFC3339 := time_Parse_RFC3339 closedLibs;
  strconv_ParseFloat := strconv_ParseFloat closedLibs;
  float32 := float32 closedLibs;
  strconv_Quote := strconv_Quote closedLibs;
  json_Unmarshal := json_Unmarshal closedLibs;
  xml_Unmarshal := xmlOnDocument;
  base64_DecodeString := base64_DecodeString closedLibs
|}.

(** A ['%'] that two hexadecimal digits do not follow. *)
Fixpoint malformedEscape (s : string) : bool :=
  match s with
  | EmptyString => false
  | String c rest =>
      if Ascii.eqb c url.percent then
        match rest with
        | String h1 (String h2 rest') =>
            if url.ishex h1 && url.ishex h2 then malformedEscape rest' else true
        | _ => true
        end
      else malformedEscape rest
  end.

(** The decoded [key=value] pair of one piece of a query, for a piece
    that is not empty and decodes. *)
Definition pairOf (piece : string) : option (string * string) :=
  if String.eqb piece "" then None
  else
    let '(key, value, _) := strings.Cut piece "=" in
    match url.QueryUnescape key, url.QueryUnescape value with
    | (key, None), (value, None) => Some (key, value)
    | _, _ => None
    end.

(** The values the pieces give to [key], in order of appearance. *)
Definition valuesOf (key : string) (pieces : list string) : list string :=
  omap (fun piece =>
          match pairOf piece with
          | Some (k, v) => if String.eqb k key then Some v else None
          | None => None
          end) pieces.

(** *** The walk, field by field

    What the turn of one field of the loop amounts to when the loop is
    not left at that field. *)

Section Walk.

Context (L : Libs) (environ : gmap string string).

(** The field is converted from the environment: it can be set, is not
    walked as a nested struct and has a key. *)
Definition leaf (f : StructField) : bool :=
  CanSet f && negb (nested f) && negb (skipKey (Tag_env f)).

(** The loop is not left at this field: a nested struct is parsed
    without an error, the key of a leaf is in the environment and its
    setter does not panic. *)
Definition passes (f : StructField * value) : bool :=
  let '(fieldType, field) := f in
  if negb (CanSet fieldType) then true
  else if nested fieldType then
    match (ParseElem L environ (Type_ fieldType) field).1.1 with
    | Returns None => true
    | _ => false
    end
  else if skipKey (Tag_env fieldType) then true
  else
    match environ !! Tag_env fieldType with
    | None => false
    | Some val =>
        match (setValueFromEnv L field fieldType val).2 with
        | Panics => false
        | Returns _ => true
        end
    end.

(** The key and the cause, when the field is a leaf whose conversion
    fails. *)
Definition failure (f : StructField * value) : option (string * error) :=
  let '(fieldType, field) := f in
  if leaf fieldType then
    match environ !! Tag_env fieldType with
    | Some val =>
        match (setValueFromEnv L field fieldType val).2 with
        | Returns (Some cause) => Some (Tag_env fieldType, cause)
        | _ => None
        end
    | None => None
    end
  else None.

(** The conversion failures of the fields, in declaration order. *)
Definition failures (fields : list (StructField * value)) : list (string * error) :=
  omap failure fields.

(** What the field holds after its turn. *)
Definition after (f : StructField * value) : StructField * value :=
  let '(fieldType, field) := f in
  if negb (CanSet fieldType) then f
  else if nested fieldType then (fieldType, (ParseElem L environ (Type_ fieldType) field).1.2)
  else if skipKey (Tag_env fieldType) then f
  else
    match environ !! Tag_env fieldType with
    | Some val => (fieldType, (setValueFromEnv L field fieldType val).1)
    | None => f
    end.

(** The keys looked up during the turn of the field. *)
Definition lookups (f : StructField * value) : list string :=
  let '(fieldType, field) := f in
  if negb (CanSet fieldType) then []
  else if nested fieldType then (ParseElem L environ (Type_ fieldType) field).2
  else if skipKey (Tag_env fieldType) then []
  else [Tag_env fieldType].

(** One line of the aggregated message. *)
Definition line (failed : string * error) : string :=
  "env '" +:+ failed.1 +:+ "': " +:+ Error L failed.2 +:+ newline.

Fixpoint joinLines (lines : list string) : string :=
  match lines with
  | [] => EmptyString
  | l :: rest => l +:+ joinLines rest
  end.

(** The aggregated error: the banner, then one line for each failure. *)
Definition aggregated (failed : list (string * error)) : error :=
  errorString (banner +:+ joinLines (map line failed)).

End Walk.

(** The number of bits a [bitSize] argument of [strconv] stands for: 0
    is the size of [int]. *)
Definition bitsOf (bitSize : Z) : Z := if bitSize =? 0 then strconv.IntSize else bitSize.

(** The element an integer slice of type [t] holds for one trimmed
    piece of the raw value: the value of the decimal when it fits the
    width the piece is parsed at, converted to the element type. *)
Definition elementValue (t : ty) (piece : string) : option Z :=
  let signed64 :=
    match signedDecimal piece with
    | Some v => if (- 2 ^ 63 <=? v) && (v <? 2 ^ 63) then Some v else None
    | None => None
    end in
  let unsigned (bits : Z) :=
    match unsignedDecimal piece with
    | Some v => if v <? 2 ^ bits then Some v else None
    | None => None
    end in
  match t with
  | TInts | TInt64s => signed64
  | TInt32s => int32 <$> signed64
  | TUints | TUint64s => unsigned 64
  | TUint32s => unsigned 32
  | _ => None
  end.

(** The slice types whose elements are integers. *)
Definition integerSlice (t : ty) : bool :=
  match t with
  | TInts | TInt32s | TInt64s | TUints | TUint32s | TUint64s => true
  | _ => false
  end.

(** The value of an integer slice of type [t] with the elements [vs]. *)
Definition integerSliceOf (t : ty) (vs : list Z) : value :=
  match t with
  | TUints | TUint32s | TUint64s => VUints vs
  | _ => VInts vs
  end.

(** The turn of a field goes well: a nested struct is parsed without
    an error, and a leaf finds its key in the environment and converts. *)
Definition fieldSucceeds (L : Libs) (environ : gmap string string)
    (f : StructField * value) : Prop :=
  CanSet f.1 = true ->
  (nested f.1 = true -> (ParseElem L environ (Type_ f.1) f.2).1.1 = Returns None)
  /\ (leaf f.1 = true ->
      exists val, environ !! Tag_env f.1 = Some val
                  /\ (setValueFromEnv L f.2 f.1 val).2 = Returns None).

(** The errors [Parse] can return: the invalid target, a key that is
    not in the environment, or the aggregate of one failure or more. *)
Definition parseError (L : Libs) (environ : gmap string string) (e : error) : Prop :=
  e = invalidTarget
  \/ (exists key, e = missingKey key /\ environ !! key = None)
  \/ (exists failed, failed <> [] /\ e = aggregated L failed).

(** The field is not handed to a [json] or [xml] decoder: its type has
    a case in the type switch, or its [encoding] tag is neither of the
    two. *)
Definition plainField (f : StructField) : bool :=
  builtin (Type_ f)
  || negb (String.eqb (Tag_encoding f) "json" || String.eqb (Tag_encoding f) "xml").

(** No field of the value, at any depth, is handed to a [json] or
    [xml] decoder. *)
Fixpoint plainTree (v : value) : bool :=
  match v with
  | VStruct fields => forallb (fun f => plainField f.1 && plainTree f.2) fields
  | _ => true
  end.

(** The tests of the repository that stay within the modelled routines. *)
Module Tests.

Definition run (environ : list (string * string)) (fields : list (StructField * value)) :=
  Parse closedLibs (list_to_map environ) (PtrTo TStruct (VStruct fields)).

Definition isError (r : outcome * target * list string) : bool :=
  match r.1.1 with Returns (Some _) => true | _ => false end.

Example TestParse_NonPointer_Error :
  isError (Parse closedLibs (list_to_map [("STRING_VAL", "hello")])
             (NotPtr TStruct (VStruct [(envField "StringVal" TString "STRING_VAL", VString "")])))
  = true.
Proof. vm_compute. reflexivity. Qed.

Example TestParse_MissingENV_Error :
  isError (run [] [(envField "StringVal" TString "STRING_VAL", VString "")]) = true.
Proof. vm_compute. reflexivity. Qed.

Example TestParse_Ignored :
  let fields := [(envField "StringVal" TString "-", VString "");
                 (envField "IgnoredVal" TString "", VString "")] in
  run [] fields = (Returns None, PtrTo TStruct (VStruct fields), []).
Proof. vm_compute. reflexivity. Qed.

Example TestParse_Int :
  run [("INT_VAL", "2")] [(envField "IntVal" TInt "INT_VAL", VInt 0)]
  = (Returns None, PtrTo TStruct (VStruct [(envField "IntVal" TInt "INT_VAL", VInt 2)]),
     ["INT_VAL"]).
Proof. vm_compute. reflexivity. Qed.

Example TestParse_Int_Error :
  isError (run [("INT_VAL", "2e")] [(envField "IntVal" TInt "INT_VAL", VInt 0)]) = true.
Proof. vm_compute. reflexivity. Qed.

Example TestParse_Uint_Error :
  isError (run [("UINT_VAL", "-3")] [(envField "UintVal" TUint "UINT_VAL", VUint 0)]) = true.
Proof. vm_compute. reflexivity. Qed.

Example TestParse_Bool_Error :
  isError (run [("BOOL_VAL", "not true")] [(envField "BoolVal" TBool "BOOL_VAL", VBool false)])
  = true.
Proof. vm_compute. reflexivity. Qed.

Example TestParse_StringSlice :
  (run [("STRING_SLICE", "a,b,c")]
     [(envField "StringSliceVal" TStrings "STRING_SLICE", VStrings [])]).1.2
  = PtrTo TStruct
      (VStruct [(envField "StringSliceVal" TStrings "STRING_SLICE", VStrings ["a"; "b"; "c"])]).
Proof. vm_compute. reflexivity. Qed.

Example TestParse_Int32Slice :
  (run [("INT32_SLICE", "1,2,3")] [(envField "IntSlice" TInt32s "INT32_SLICE", VInts [])]).1.2
  = PtrTo TStruct (VStruct [(envField "IntSlice" TInt32s "INT32_SLICE", VInts [1; 2; 3])]).
Proof. vm_compute. reflexivity. Qed.

Example TestParse_UintSlice32_Error :
  isError (run [("UINT_SLICE", "1,-2,3")] [(envField "IntSlice" TUint32s "UINT_SLICE", VUints [])])
  = true.
Proof. vm_compute. reflexivity. Qed.

Example TestParse_Nested :
  let Nested v := VStruct [(envField "Value" TString "NESTED", VString v)] in
  let field := mkField "Nested" TStruct EmptyString EmptyString true true in
  run [("NESTED", "nested value")] [(field, Nested "")]
  = (Returns None, PtrTo TStruct (VStruct [(field, Nested "nested value")]), ["NESTED"]).
Proof. vm_compute. reflexivity. Qed.

Example TestParse_Embeded_Error :
  let Embeded := VStruct [(envField "Value" TInt "EMBEDED", VInt 0)] in
  isError (run [("EMBEDED", "embeded value")] [(envField "Embeded" TStruct "", Embeded)]) = true.
Proof. vm_compute. reflexivity. Qed.

Example TestParse_Encoding_Form_Error :
  isError (run [("FORM_DATA", "field1=value;field2=val")]
             [(mkField "FormVal" TValues "FORM_DATA" "form" false true, VValues ∅)]) = true.
Proof. vm_compute. reflexivity. Qed.

Example TestParse_Unexported_Member :
  let fields := [(mkField "dataUnexported" TString "DATA_UNEXPORTED" "" false false, VString "")] in
  run [("DATA_UNEXPORTED", "data unexported")] fields
  = (Returns None, PtrTo TStruct (VStruct fields), []).
Proof. vm_compute. reflexivity. Qed.

Example Split_sample :
  strings.Split "1, 2,,3" "," = ["1"; " 2"; ""; "3"] /\ strings.Split "" "," = [""].
Proof. split; reflexivity. Qed.

Example TrimSpace_sample : strings.TrimSpace "  a b  " = "a b".
Proof. reflexivity. Qed.

Example ParseQuery_sample :
  url.ParseQuery "field1=value&field2=val&field1=a%20b+c"
  = (<["field1" := ["value"; "a b c"]]> (<["field2" := ["val"]]> ∅), None).
Proof. vm_compute. reflexivity. Qed.

Example ParseQuery_semicolon :
  (url.ParseQuery "field1=value;field2=val").2 = Some url.semicolonError.
Proof. vm_compute. reflexivity. Qed.

Example Atoi_bounds :
  strconv.Atoi "-9223372036854775808" = (-9223372036854775808, None)
  /\ strconv.Atoi "9223372036854775808"
     = (9223372036854775807, Some (strconv.rangeError "Atoi" "9223372036854775808"))
  /\ strconv.Atoi "+" = (0, Some (strconv.syntaxError "Atoi" "+"))
  /\ strconv.ParseUint "18446744073709551616" 64
     = (18446744073709551615, Some (strconv.rangeError "ParseUint" "18446744073709551616")).
Proof. repeat split; vm_compute; reflexivity. Qed.

End Tests.

(** ** Properties *)

Section Properties.

Context (L : Libs) (environ : gmap string string).

Implicit Types (field : value) (fieldType : StructField) (val : string).
Implicit Types (fields rest : list (StructField * value)) (errs : list error).

Lemma ParseElem_unfold t v :
  ParseElem L environ t v =
  match Kind_of t with
  | Struct =>
      match v with
      | VStruct fields =>
          let '(fl, fields', keys) := parseFields L environ (ParseElem L environ) fields [] in
          (finish L fl, VStruct fields', keys)
      | _ => (Returns None, v, [])
      end
  | _ => (Returns (Some invalidTarget), v, [])
  end.
Proof. destruct v; reflexivity. Qed.

(** *** One turn of the loop *)

Section Step.

Variable recurse : ty -> value -> outcome * value * list string.

Lemma parseFields_unsettable fieldType field rest errs :
  CanSet fieldType = false ->
  parseFields L environ recurse ((fieldType, field) :: rest) errs
  = carryOn fieldType field [] (parseFields L environ recurse rest errs).
Proof. intros H. simpl. rewrite H. reflexivity. Qed.

Lemma parseFields_nested fieldType field rest errs :
  CanSet fieldType = true -> nested fieldType = true ->
  parseFields L environ recurse ((fieldType, field) :: rest) errs
  = match recurse (Type_ fieldType) field with
    | (Returns None, field', keys) =>
        carryOn fieldType field' keys (parseFields L environ recurse rest errs)
    | (Returns (Some err), field', keys) => (Left err, (fieldType, field') :: rest, keys)
    | (Panics, field', keys) => (Panicked, (fieldType, field') :: rest, keys)
    end.
Proof. intros H1 H2. unfold nested in H2. simpl. rewrite H1, H2. reflexivity. Qed.

Lemma parseFields_skipped fieldType field rest errs :
  CanSet fieldType = true -> nested fieldType = false -> skipKey (Tag_env fieldType) = true ->
  parseFields L environ recurse ((fieldType, field) :: rest) errs
  = carryOn fieldType field [] (parseFields L environ recurse rest errs).
Proof. intros H1 H2 H3. unfold nested in H2. simpl. rewrite H1, H2, H3. reflexivity. Qed.

Lemma parseFields_missing fieldType field rest errs :
  CanSet fieldType = true -> nested fieldType = false -> skipKey (Tag_env fieldType) = false ->
  environ !! Tag_env fieldType = None ->
  parseFields L environ recurse ((fieldType, field) :: rest) errs
  = (Left (missingKey (Tag_env fieldType)), (fieldType, field) :: rest, [Tag_env fieldType]).
Proof.
  intros H1 H2 H3 H4. unfold nested in H2. simpl. unfold LookupEnv.
  rewrite H1, H2, H3, H4. reflexivity.
Qed.

Lemma parseFields_leaf fieldType field rest errs val :
  CanSet fieldType = true -> nested fieldType = false -> skipKey (Tag_env fieldType) = false ->
  environ !! Tag_env fieldType = Some val ->
  parseFields L environ recurse ((fieldType, field) :: rest) errs
  = match setValueFromEnv L field fieldType val with
    | (field', Returns None) =>
        carryOn fieldType field' [Tag_env fieldType] (parseFields L environ recurse rest errs)
    | (field', Returns (Some err)) =>
        carryOn fieldType field' [Tag_env fieldType]
          (parseFields L environ recurse rest (errs ++ [wrapKey L (Tag_env fieldType) err]))
    | (field', Panics) => (Panicked, (fieldType, field') :: rest, [Tag_env fieldType])
    end.
Proof.
  intros H1 H2 H3 H4. unfold nested in H2. simpl. unfold LookupEnv.
  rewrite H1, H2, H3, H4. reflexivity.
Qed.

End Step.

(** *** The argument of [Parse] *)

(** C7. An argument that is not a pointer, a nil pointer, or a pointer
    to something that is no struct makes [Parse] return the error
    "target must be a pointer to a struct" at once: the argument is left
    as it was and no key of the environment is looked up. *)
Theorem Parse_invalid_target tg :
  pointsToStruct tg = false ->
  Parse L environ tg = (Returns (Some invalidTarget), tg, []).
Proof.
  destruct tg as [t v | t | t v]; simpl; try reflexivity.
  intros Hkind. rewrite ParseElem_unfold.
  destruct (Kind_of t); try discriminate; reflexivity.
Qed.

(** *** Types without a case *)

(** C8. A field whose type has no case in the type switch and whose
    [encoding] tag is absent or none of json, xml, form, base64:
    [setValueFromEnv] returns nil and leaves the field as it was; in the
    loop of [Parse] the turn of such a field appends nothing to the
    errors and the walk goes on with the next field. *)
Theorem unhandled_type_is_noop field fieldType val :
  builtin (Type_ fieldType) = false ->
  recognised (Tag_encoding fieldType) = false ->
  setValueFromEnv L field fieldType val = (field, Returns None)
  /\ forall recurse rest errs,
      CanSet fieldType = true -> nested fieldType = false ->
      skipKey (Tag_env fieldType) = false ->
      environ !! Tag_env fieldType = Some val ->
      parseFields L environ recurse ((fieldType, field) :: rest) errs
      = carryOn fieldType field [Tag_env fieldType] (parseFields L environ recurse rest errs).
Proof.
  intros Hty Henc.
  assert (Hset : setValueFromEnv L field fieldType val = (field, Returns None)).
  { unfold recognised in Henc. simpl in Henc.
    repeat (apply orb_false_elim in Henc; destruct Henc as [? Henc]).
    unfold setValueFromEnv.
    destruct (Type_ fieldType); try discriminate Hty;
      repeat match goal with H : String.eqb _ _ = false |- _ => rewrite H; clear H end;
      reflexivity. }
  split; [exact Hset |].
  intros recurse rest errs H1 H2 H3 H4.
  rewrite (parseFields_leaf recurse _ _ _ _ val) by assumption.
  rewrite Hset. reflexivity.
Qed.

(** *** Integers in base 10 *)

Lemma is_digit_range c : is_digit c = true -> 48 <= byte_val c <= 57.
Proof. unfold is_digit. rewrite andb_true_iff, !Z.leb_le. tauto. Qed.

Lemma digitsValue_ge s : forall n v, 0 <= n -> digitsValue s n = Some v -> n <= v.
Proof.
  induction s as [| c s IH]; simpl; intros n v Hn Hv.
  - injection Hv as <-. lia.
  - destruct (is_digit c) eqn:Hc; [| discriminate].
    apply is_digit_range in Hc. apply IH in Hv; lia.
Qed.

(** The digit loop of [ParseUint] on a run of digits whose value fits
    [maxVal] returns that value. *)
Lemma parseUintLoop_digits s : forall n v maxVal,
  0 <= n -> digitsValue s n = Some v -> v <= maxVal -> maxVal < 2 ^ 64 ->
  strconv.parseUintLoop s n (strconv.maxUint64 / 10 + 1) maxVal = (v, None).
Proof.
  induction s as [| c s IH]; simpl; intros n v maxVal Hn Hv Hle Hmax.
  - congruence.
  - destruct (is_digit c) eqn:Hc; [| discriminate].
    pose proof (is_digit_range c Hc) as Hr.
    assert (Hge : n * 10 + (byte_val c - 48) <= v)
      by (apply (digitsValue_ge s); [lia | exact Hv]).
    unfold strconv.base.
    replace (byte_val c - 48 >=? 10) with false by (symmetry; rewrite Z.geb_leb, Z.leb_gt; lia).
    change (strconv.maxUint64 / 10 + 1) with 1844674407370955162 in *.
    change (2 ^ 64) with 18446744073709551616 in *.
    replace (n >=? 1844674407370955162) with false
      by (symmetry; rewrite Z.geb_leb, Z.leb_gt; lia).
    rewrite (Z.mod_small (n * 10)) by lia.
    rewrite (Z.mod_small (n * 10 + (byte_val c - 48))) by lia.
    replace (n * 10 + (byte_val c - 48) <? n * 10) with false by (symmetry; rewrite Z.ltb_ge; lia).
    replace (n * 10 + (byte_val c - 48) >? maxVal) with false
      by (symmetry; rewrite Z.gtb_ltb, Z.ltb_ge; lia).
    simpl. apply IH; [lia | exact Hv | lia | lia].
Qed.

Lemma unsignedDecimal_nonempty s v : unsignedDecimal s = Some v -> s <> EmptyString.
Proof. destruct s; [discriminate | congruence]. Qed.

Lemma unsignedDecimal_digits s v :
  unsignedDecimal s = Some v -> digitsValue s 0 = Some v /\ 0 <= v.
Proof.
  intros H. assert (Hd : digitsValue s 0 = Some v) by (destruct s; [discriminate | exact H]).
  split; [exact Hd |]. apply (digitsValue_ge s 0 v); [lia | exact Hd].
Qed.

(** [ParseUint] at 64 bits, asked for directly or as the size of [int],
    returns the value of every unsigned decimal below [2^64]. *)
Lemma ParseUint_decimal s v bitSize :
  bitSize = 64 \/ bitSize = 0 ->
  unsignedDecimal s = Some v -> v < 2 ^ 64 ->
  strconv.ParseUint s bitSize = (v, None).
Proof.
  intros Hb Hs Hv. unfold strconv.ParseUint.
  pose proof (unsignedDecimal_nonempty _ _ Hs) as Hne.
  apply unsignedDecimal_digits in Hs as [Hd H0].
  destruct (String.eqb_spec s EmptyString) as [-> | _]; [congruence |].
  assert (Hloop : strconv.parseUintLoop s 0 (strconv.maxUint64 / 10 + 1) (2 ^ 64 - 1) = (v, None))
    by (apply parseUintLoop_digits; [lia | exact Hd | lia | lia]).
  destruct Hb as [-> | ->]; simpl; unfold strconv.IntSize; rewrite Hloop; reflexivity.
Qed.

Lemma atoiLoop_digits s : forall n v,
  digitsValue s n = Some v -> strconv.atoiLoop s n = Some v.
Proof.
  induction s as [| c s IH]; simpl; intros n v Hv; [exact Hv |].
  destruct (is_digit c) eqn:Hc; [| discriminate].
  apply is_digit_range in Hc.
  rewrite Z.mod_small by lia.
  replace (byte_val c - 48 >? 9) with false by (symmetry; rewrite Z.gtb_ltb, Z.ltb_ge; lia).
  apply IH, Hv.
Qed.

Lemma nonempty_length s : s <> EmptyString -> (Z.of_nat (String.length s) <? 1) = false.
Proof. destruct s; [congruence |]. intros _. simpl String.length. apply Z.ltb_ge. lia. Qed.

(** [ParseInt] at the size of [int] returns the value of every signed
    decimal that fits 64 bits. *)
Lemma ParseInt_decimal s v :
  signedDecimal s = Some v -> - 2 ^ 63 <= v < 2 ^ 63 ->
  strconv.ParseInt s 0 = (v, None).
Proof.
  intros Hs Hv. destruct s as [| c rest]; [discriminate |].
  unfold strconv.ParseInt. unfold signedDecimal in Hs.
  assert (Hcont : forall (neg : bool) u, 0 <= u -> (if neg then - u else u) = v ->
    (let bitSize := if 0 =? 0 then strconv.IntSize else 0 in
     let cutoff := 2 ^ (bitSize - 1) in
     if negb neg && (u >=? cutoff)
     then (cutoff - 1, Some (strconv.rangeError "ParseInt" (String c rest)))
     else if neg && (u >? cutoff)
          then (- cutoff, Some (strconv.rangeError "ParseInt" (String c rest)))
          else (if neg then - u else u, None)) = (v, None)).
  { intros neg u Hu Huv. cbv zeta. change (2 ^ ((if 0 =? 0 then strconv.IntSize else 0) - 1))
      with 9223372036854775808.
    change (2 ^ 63) with 9223372036854775808 in Hv.
    destruct neg; simpl negb; simpl andb.
    - replace (u >? 9223372036854775808) with false
        by (symmetry; rewrite Z.gtb_ltb, Z.ltb_ge; lia).
      congruence.
    - replace (u >=? 9223372036854775808) with false
        by (symmetry; rewrite Z.geb_leb, Z.leb_gt; lia).
      congruence. }
  destruct (is_byte c 43) eqn:Hplus.
  - assert (Hminus : is_byte c 45 = false)
      by (unfold is_byte in *; apply Z.eqb_eq in Hplus; apply Z.eqb_neq; lia).
    rewrite Hminus in Hs.
    pose proof (unsignedDecimal_digits _ _ Hs) as [_ H0].
    rewrite (ParseUint_decimal rest v 0) by (auto; lia).
    apply Hcont; [exact H0 | reflexivity].
  - destruct (is_byte c 45) eqn:Hminus.
    + destruct (unsignedDecimal rest) as [u |] eqn:Hu; [| discriminate].
      injection Hs as Hs.
      pose proof (unsignedDecimal_digits _ _ Hu) as [_ H0].
      rewrite (ParseUint_decimal rest u 0) by (auto; lia).
      apply Hcont; [exact H0 | exact Hs].
    + pose proof (unsignedDecimal_digits _ _ Hs) as [_ H0].
      rewrite (ParseUint_decimal (String c rest) v 0) by (auto; lia).
      apply Hcont; [exact H0 | reflexivity].
Qed.

(** [Atoi] returns the value of every signed decimal that fits 64 bits. *)
Lemma Atoi_decimal s v :
  signedDecimal s = Some v -> - 2 ^ 63 <= v < 2 ^ 63 ->
  strconv.Atoi s = (v, None).
Proof.
  intros Hs Hv. unfold strconv.Atoi.
  destruct ((0 <? Z.of_nat (String.length s)) && (Z.of_nat (String.length s) <? 19)).
  - destruct s as [| c rest]; [discriminate |].
    unfold signedDecimal in Hs.
    destruct (is_byte c 45) eqn:Hminus.
    + destruct (unsignedDecimal rest) as [u |] eqn:Hu; [| discriminate].
      injection Hs as Hs.
      rewrite orb_true_l, andb_true_l.
      rewrite (nonempty_length rest) by (eapply unsignedDecimal_nonempty, Hu).
      apply unsignedDecimal_digits in Hu as [Hd _].
      rewrite (atoiLoop_digits _ _ _ Hd). congruence.
    + destruct (is_byte c 43) eqn:Hplus.
      * rewrite orb_true_r, andb_true_l.
        rewrite (nonempty_length rest) by (eapply unsignedDecimal_nonempty, Hs).
        apply unsignedDecimal_digits in Hs as [Hd _].
        rewrite (atoiLoop_digits _ _ _ Hd). reflexivity.
      * rewrite orb_false_l, andb_false_l.
        apply unsignedDecimal_digits in Hs as [Hd _].
        rewrite (atoiLoop_digits _ _ _ Hd). reflexivity.
  - rewrite (ParseInt_decimal s v Hs Hv). reflexivity.
Qed.

Lemma int32_range x : - 2 ^ 31 <= int32 x < 2 ^ 31.
Proof. unfold int32. pose proof (Z.mod_pos_bound (x + 2 ^ 31) (2 ^ 32)). lia. Qed.

Lemma int32_low_bits x : int32 x mod 2 ^ 32 = x mod 2 ^ 32.
Proof.
  unfold int32. rewrite (Z.mod_eq (x + 2 ^ 31) (2 ^ 32)) by lia.
  replace (x + 2 ^ 31 - 2 ^ 32 * ((x + 2 ^ 31) / 2 ^ 32) - 2 ^ 31)
    with (x + - ((x + 2 ^ 31) / 2 ^ 32) * 2 ^ 32) by lia.
  apply Z.mod_add. lia.
Qed.

(** C10. A scalar field of type [uint32] or [int32] is parsed at 64 bits
    and stored without a range check: every decimal string whose value
    fits 64 bits but not 32 is accepted, and the field then holds the low
    32 bits of the value. *)
Theorem narrow_field_keeps_low_bits field fieldType val v :
  (Type_ fieldType = TUint32 ->
   unsignedDecimal val = Some v -> 2 ^ 32 <= v < 2 ^ 64 ->
   setValueFromEnv L field fieldType val = (VUint (v mod 2 ^ 32), Returns None))
  /\ (Type_ fieldType = TInt32 ->
      signedDecimal val = Some v -> - 2 ^ 63 <= v < 2 ^ 63 -> ~ (- 2 ^ 31 <= v < 2 ^ 31) ->
      exists w, setValueFromEnv L field fieldType val = (VInt w, Returns None)
                /\ - 2 ^ 31 <= w < 2 ^ 31 /\ w mod 2 ^ 32 = v mod 2 ^ 32).
Proof.
  split.
  - intros Hty Hval Hv. unfold setValueFromEnv. rewrite Hty.
    rewrite (ParseUint_decimal val v 64) by (auto; lia). reflexivity.
  - intros Hty Hval Hv _. exists (int32 v). unfold setValueFromEnv. rewrite Hty.
    rewrite (Atoi_decimal val v Hval Hv).
    split; [reflexivity |]. split; [apply int32_range | apply int32_low_bits].
Qed.

(** *** Sequences *)

(** The loop that fills the slice by index computes the list of the
    converted elements: with the first [i] cells already filled by [pre],
    it ends with [pre] followed by the conversions of the elements left,
    or with the cause of the first of them that fails. *)
Lemma fillSlice_convertEach parse cast (elems : list string) :
  forall (pre : list Z),
  fillSlice parse cast elems (length pre) (pre ++ replicate (length elems) 0)
  = match convertEach (elemRule parse cast) (map strings.TrimSpace elems) with
    | inl ns => inl (pre ++ ns)
    | inr cause => inr cause
    end.
Proof.
  induction elems as [| e elems IH]; intros pre; simpl.
  - reflexivity.
  - unfold elemRule at 1. destruct (parse (strings.TrimSpace e)) as [n [cause |]].
    + reflexivity.
    + rewrite insert_app_r_alt by lia. rewrite Nat.sub_diag. simpl.
      specialize (IH (pre ++ [cast n])).
      rewrite length_app, Nat.add_1_r, <- app_assoc in IH. simpl in IH.
      rewrite IH. destruct (convertEach _ _); [| reflexivity].
      rewrite <- app_assoc. reflexivity.
Qed.

Lemma setSlice_convertEach field mk parse cast val :
  setSlice field mk parse cast val
  = match convertEach (elemRule parse cast) (map strings.TrimSpace (strings.Split val ",")) with
    | inl ns => (mk ns, Returns None)
    | inr cause => (field, Returns (Some cause))
    end.
Proof.
  unfold setSlice.
  pose proof (fillSlice_convertEach parse cast (strings.Split val ",") []) as Hfill.
  simpl in Hfill. rewrite Hfill.
  destruct (convertEach _ _); reflexivity.
Qed.

(** C5, as the code has it. A numeric slice field: the raw value is
    split on [','], each piece is trimmed and converted by the element
    rule of the slice type, in order; the first piece that fails ends the
    conversion with its cause and the field is left as it was, otherwise
    the field receives the converted elements.  A [[]string] field
    receives the pieces of the split as they are, untrimmed. *)
Theorem slice_conversion field fieldType val :
  (forall rule mk, sliceRule L (Type_ fieldType) = Some (rule, mk) ->
     setValueFromEnv L field fieldType val
     = match convertEach rule (map strings.TrimSpace (strings.Split val ",")) with
       | inl ns => (mk ns, Returns None)
       | inr cause => (field, Returns (Some cause))
       end)
  /\ (Type_ fieldType = TStrings ->
      setValueFromEnv L field fieldType val = (VStrings (strings.Split val ","), Returns None)).
Proof.
  split.
  - intros rule mk Hrule. unfold setValueFromEnv.
    destruct (Type_ fieldType); try discriminate Hrule;
      injection Hrule as <- <-; apply setSlice_convertEach.
  - intros Hty. unfold setValueFromEnv. rewrite Hty. reflexivity.
Qed.

(** *** No write on failure *)

Lemma setSlice_failure field mk parse cast val field' r :
  setSlice field mk parse cast val = (field', r) -> r <> Returns None -> field' = field.
Proof.
  unfold setSlice. destruct (fillSlice _ _ _ _ _); intros [= <- <-]; congruence.
Qed.

(** C6, as the code has it. Where [setValueFromEnv] does not return
    nil, the field holds what it held before, for every type with a case
    in the type switch and for the [form] and [base64] encodings: the
    value is parsed first and stored only on success.  With the [json] and
    [xml] encodings the decoder is handed the address of the field, and
    the field holds whatever the decoder left there, whether it failed or
    not.  A field that cannot be set, and a field without a key that is no
    nested struct, are passed over as they are. *)
Theorem failure_leaves_field field fieldType val :
  (builtin (Type_ fieldType) = true
   \/ (Tag_encoding fieldType <> "json" /\ Tag_encoding fieldType <> "xml") ->
   forall field' r,
     setValueFromEnv L field fieldType val = (field', r) -> r <> Returns None -> field' = field)
  /\ (builtin (Type_ fieldType) = false -> Tag_encoding fieldType = "json" ->
      setValueFromEnv L field fieldType val
      = ((json_Unmarshal L val (Type_ fieldType) field).1,
         Returns (json_Unmarshal L val (Type_ fieldType) field).2))
  /\ (builtin (Type_ fieldType) = false -> Tag_encoding fieldType = "xml" ->
      setValueFromEnv L field fieldType val
      = ((xml_Unmarshal L val (Type_ fieldType) field).1,
         Returns (xml_Unmarshal L val (Type_ fieldType) field).2))
  /\ (CanSet fieldType = false
      \/ (CanSet fieldType = true /\ nested fieldType = false
          /\ skipKey (Tag_env fieldType) = true) ->
      forall recurse rest errs,
        parseFields L environ recurse ((fieldType, field) :: rest) errs
        = carryOn fieldType field [] (parseFields L environ recurse rest errs)).
Proof.
  split; [| split; [| split]].
  - intros Hcase field' r Hset Hr. unfold setValueFromEnv in Hset.
    destruct (Type_ fieldType) eqn:Hty;
      try (eapply setSlice_failure; eassumption);
      try (match type of Hset with
           | context [match ?call with _ => _ end] =>
               destruct call as [? [? |]]; injection Hset as <- <-; congruence
           end);
      try (injection Hset as <- <-; congruence).
    all: destruct Hcase as [Hb | [Hjson Hxml]]; [discriminate Hb |].
    all: destruct (String.eqb_spec (Tag_encoding fieldType) "json"); [contradiction |].
    all: destruct (String.eqb_spec (Tag_encoding fieldType) "xml"); [contradiction |].
    all: destruct (String.eqb (Tag_encoding fieldType) "form");
      [destruct (url.ParseQuery val) as [? [? |]]; injection Hset as <- <-; congruence |].
    all: destruct (String.eqb (Tag_encoding fieldType) "base64");
      [destruct (base64_DecodeString L val) as [? [? |]]; injection Hset as <- <-; congruence |].
    all: injection Hset as <- <-; congruence.
  - intros Hb Henc. unfold setValueFromEnv. rewrite Henc.
    destruct (Type_ fieldType); try discriminate Hb;
      simpl; destruct (json_Unmarshal L val _ field); reflexivity.
  - intros Hb Henc. unfold setValueFromEnv. rewrite Henc.
    destruct (Type_ fieldType); try discriminate Hb;
      simpl; destruct (xml_Unmarshal L val _ field); reflexivity.
  - intros [Hset | (Hset & Hnest & Hskip)] recurse rest errs.
    + apply parseFields_unsettable, Hset.
    + apply parseFields_skipped; assumption.
Qed.

(** *** Query strings *)

Lemma string_len_ind (P : string -> Prop) :
  (forall s, (forall t, (String.length t < String.length s)%nat -> P t) -> P s) ->
  forall s, P s.
Proof.
  intros Hstep s.
  assert (Hall : forall n t, (String.length t < n)%nat -> P t).
  { induction n as [| n IH]; intros t Ht; [lia |].
    apply Hstep. intros u Hu. apply IH. lia. }
  apply (Hall (S (String.length s))). lia.
Qed.

(** [Split] is [Cut] repeated. *)
Lemma Split_Cut sep s :
  strings.Split s sep
  = (strings.Cut s sep).1.1
      :: (if (strings.Cut s sep).2 then strings.Split (strings.Cut s sep).1.2 sep else []).
Proof.
  induction s as [| c s IH]; simpl; [reflexivity |].
  destruct (Ascii.eqb c sep); simpl; [reflexivity |].
  rewrite IH. destruct (strings.Cut s sep) as [[before after] found]. reflexivity.
Qed.

Lemma Cut_length sep s :
  (strings.Cut s sep).2 = true ->
  (String.length (strings.Cut s sep).1.2 < String.length s)%nat.
Proof.
  induction s as [| c s IH]; simpl; [discriminate |].
  destruct (Ascii.eqb c sep); simpl; [lia |].
  destruct (strings.Cut s sep) as [[before after] found]. simpl in *.
  intros Hf. specialize (IH Hf). lia.
Qed.

(** A property of strings that a cut hands to the part before the
    separator or to the part after it is handed to a piece of the split. *)
Lemma Split_piece (Q : string -> bool) sep :
  (forall s, Q s = true ->
     Q (strings.Cut s sep).1.1 = true
     \/ ((strings.Cut s sep).2 = true /\ Q (strings.Cut s sep).1.2 = true)) ->
  forall s, Q s = true -> exists piece, In piece (strings.Split s sep) /\ Q piece = true.
Proof.
  intros Hcut s. induction s as [s IH] using string_len_ind. intros HQ.
  rewrite Split_Cut. destruct (Hcut s HQ) as [Hb | [Hf Ha]].
  - eexists. split; [left; reflexivity | exact Hb].
  - rewrite Hf. destruct (IH _ (Cut_length sep s Hf) Ha) as (piece & Hin & Hp).
    exists piece. split; [right; exact Hin | exact Hp].
Qed.

Lemma Cut_contains c sep s :
  Ascii.eqb c sep = false -> strings.ContainsByte s c = true ->
  strings.ContainsByte (strings.Cut s sep).1.1 c = true
  \/ ((strings.Cut s sep).2 = true /\ strings.ContainsByte (strings.Cut s sep).1.2 c = true).
Proof.
  intros Hne. induction s as [| a s IH]; simpl; [discriminate |].
  destruct (Ascii.eqb_spec a sep) as [-> | Ha]; simpl.
  - rewrite Ascii.eqb_sym, Hne. simpl. intros H. right. split; [reflexivity | exact H].
  - destruct (strings.Cut s sep) as [[before after] found]. simpl in *.
    destruct (Ascii.eqb a c); simpl; [intros _; left; reflexivity |].
    exact IH.
Qed.

Lemma ishex_separator h :
  url.ishex h = true ->
  Ascii.eqb h "=" = false /\ Ascii.eqb h "&" = false /\ Ascii.eqb h url.percent = false.
Proof.
  destruct h as [[] [] [] [] [] [] [] []]; intros H; try discriminate H;
    repeat split; reflexivity.
Qed.

(** A malformed escape stays malformed when the string is cut at a
    byte that is neither ['%'] nor a hexadecimal digit. *)
Lemma Cut_malformed sep s :
  url.ishex sep = false -> Ascii.eqb sep url.percent = false ->
  malformedEscape s = true ->
  malformedEscape (strings.Cut s sep).1.1 = true
  \/ ((strings.Cut s sep).2 = true /\ malformedEscape (strings.Cut s sep).1.2 = true).
Proof.
  intros Hhex Hpct. induction s as [s IH] using string_len_ind. intros Hbad.
  destruct s as [| c rest]; [discriminate |].
  simpl strings.Cut. destruct (Ascii.eqb_spec c sep) as [-> | Hc].
  - simpl in *. rewrite Hpct in Hbad. right. split; [reflexivity | exact Hbad].
  - simpl malformedEscape in Hbad.
    destruct (Ascii.eqb c url.percent) eqn:Hp.
    + destruct rest as [| h1 rest1]; [left; simpl; rewrite Hp; reflexivity |].
      simpl strings.Cut. destruct (Ascii.eqb_spec h1 sep) as [-> | Hh1];
        [left; simpl; rewrite Hp; reflexivity |].
      destruct rest1 as [| h2 rest2]; [left; simpl; rewrite Hp; reflexivity |].
      simpl strings.Cut. destruct (Ascii.eqb_spec h2 sep) as [-> | Hh2];
        [left; simpl; rewrite Hp; reflexivity |].
      assert (Hlen : (String.length rest2 < String.length (String c (String h1 (String h2 rest2))))%nat)
        by (simpl; lia).
      specialize (IH rest2 Hlen).
      destruct (strings.Cut rest2 sep) as [[b2 a2] f2]. simpl in *. rewrite Hp.
      destruct (url.ishex h1 && url.ishex h2); [apply IH, Hbad | left; reflexivity].
    + assert (Hlen : (String.length rest < String.length (String c rest))%nat) by (simpl; lia).
      specialize (IH rest Hlen Hbad).
      destruct (strings.Cut rest sep) as [[b a] f]. simpl in *. rewrite Hp. exact IH.
Qed.

Lemma QueryUnescape_malformed s :
  malformedEscape s = true -> is_Some (url.QueryUnescape s).2.
Proof.
  induction s as [s IH] using string_len_ind. intros Hbad.
  destruct s as [| c rest]; [discriminate |].
  simpl in Hbad. simpl url.QueryUnescape.
  destruct (Ascii.eqb c url.percent).
  - destruct rest as [| h1 [| h2 rest2]]; try (eexists; reflexivity).
    destruct (url.ishex h1 && url.ishex h2); [| eexists; reflexivity].
    assert (Hlen : (String.length rest2 < String.length (String c (String h1 (String h2 rest2))))%nat)
      by (simpl; lia).
    destruct (IH rest2 Hlen Hbad) as [e He].
    destruct (url.QueryUnescape rest2) as [t [e' |]]; [eexists; reflexivity | discriminate He].
  - assert (Hlen : (String.length rest < String.length (String c rest))%nat) by (simpl; lia).
    destruct (IH rest Hlen Hbad) as [e He].
    destruct (url.QueryUnescape rest) as [t [e' |]]; [eexists; reflexivity | discriminate He].
Qed.

(** Once an error is kept, the pieces that follow keep one. *)
Lemma parsePair_keeps_error m e piece : is_Some (url.parsePair (m, Some e) piece).2.
Proof.
  unfold url.parsePair.
  destruct (strings.ContainsByte piece ";"); [eexists; reflexivity |].
  destruct (String.eqb piece ""); [eexists; reflexivity |].
  destruct (strings.Cut piece "=") as [[key value] found].
  destruct (url.QueryUnescape key) as [k [e1 |]]; [eexists; reflexivity |].
  destruct (url.QueryUnescape value) as [v [e1 |]]; eexists; reflexivity.
Qed.

Lemma fold_keeps_error pieces : forall st,
  is_Some st.2 -> is_Some (fold_left url.parsePair pieces st).2.
Proof.
  induction pieces as [| piece pieces IH]; intros st Hst; simpl; [exact Hst |].
  apply IH. destruct st as [m [e |]]; [apply parsePair_keeps_error |].
  destruct Hst as [? Hst]. discriminate Hst.
Qed.

Lemma fold_meets_error piece pieces : forall st,
  (forall st', is_Some (url.parsePair st' piece).2) ->
  In piece pieces -> is_Some (fold_left url.parsePair pieces st).2.
Proof.
  intros st Hpiece. revert st.
  induction pieces as [| p pieces IH]; intros st Hin; [destruct Hin |].
  simpl. destruct Hin as [-> | Hin]; [apply fold_keeps_error, Hpiece | apply IH, Hin].
Qed.

Lemma parsePair_semicolon st piece :
  strings.ContainsByte piece ";" = true -> is_Some (url.parsePair st piece).2.
Proof.
  intros H. unfold url.parsePair. destruct st as [m err]. rewrite H. eexists; reflexivity.
Qed.

Lemma parsePair_malformed st piece :
  malformedEscape piece = true -> is_Some (url.parsePair st piece).2.
Proof.
  intros Hbad. unfold url.parsePair. destruct st as [m err].
  destruct (strings.ContainsByte piece ";"); [eexists; reflexivity |].
  destruct (String.eqb_spec piece "") as [-> | _]; [discriminate Hbad |].
  pose proof (Cut_malformed "=" piece eq_refl eq_refl Hbad) as Hcut.
  destruct (strings.Cut piece "=") as [[key value] found]. simpl in Hcut.
  destruct Hcut as [Hk | [_ Hv]].
  - destruct (QueryUnescape_malformed key Hk) as [e He].
    destruct (url.QueryUnescape key) as [k [e1 |]]; [| discriminate He].
    destruct err; eexists; reflexivity.
  - destruct (url.QueryUnescape key) as [k [e1 |]]; [destruct err; eexists; reflexivity |].
    destruct (QueryUnescape_malformed value Hv) as [e He].
    destruct (url.QueryUnescape value) as [v [e1 |]]; [| discriminate He].
    destruct err; eexists; reflexivity.
Qed.

(** [ParseQuery] refuses a query with a [';'] and a query with a
    malformed escape. *)
Lemma ParseQuery_refuses query :
  strings.ContainsByte query ";" = true \/ malformedEscape query = true ->
  is_Some (url.ParseQuery query).2.
Proof.
  unfold url.ParseQuery. intros [Hsemi | Hbad].
  - destruct (Split_piece (fun s => strings.ContainsByte s ";") "&"
                (fun s => Cut_contains ";" "&" s eq_refl) query Hsemi) as (piece & Hin & Hp).
    apply (fold_meets_error piece); [intros st'; apply parsePair_semicolon, Hp | exact Hin].
  - destruct (Split_piece malformedEscape "&"
                (fun s => Cut_malformed "&" s eq_refl eq_refl) query Hbad) as (piece & Hin & Hp).
    apply (fold_meets_error piece); [intros st'; apply parsePair_malformed, Hp | exact Hin].
Qed.

(** The mapping [ParseQuery] builds: each key is mapped to the values
    its pieces give it, in order of appearance. *)
Lemma fold_values pieces : forall m0 e0 m,
  fold_left url.parsePair pieces (m0, e0) = (m, None) ->
  forall key, default [] (m !! key) = default [] (m0 !! key) ++ valuesOf key pieces.
Proof.
  induction pieces as [| piece pieces IH]; intros m0 e0 m Hfold key.
  - simpl in Hfold. injection Hfold as <- _. simpl. rewrite app_nil_r. reflexivity.
  - change (fold_left url.parsePair pieces (url.parsePair (m0, e0) piece) = (m, None)) in Hfold.
    destruct (url.parsePair (m0, e0) piece) as [m1 e1] eqn:Hp.
    assert (He1 : e1 = None).
    { destruct e1 as [e |]; [| reflexivity].
      pose proof (fold_keeps_error pieces (m1, Some e) (ex_intro _ e eq_refl)) as [e' He'].
      rewrite Hfold in He'. discriminate He'. }
    subst e1. rewrite (IH _ _ _ Hfold key). unfold valuesOf. simpl omap.
    unfold url.parsePair in Hp. unfold pairOf.
    destruct (strings.ContainsByte piece ";"); [discriminate Hp |].
    destruct (String.eqb piece "").
    { injection Hp as <- _. reflexivity. }
    destruct (strings.Cut piece "=") as [[k v] found].
    destruct (url.QueryUnescape k) as [k' [e1 |]]; [destruct e0; discriminate Hp |].
    destruct (url.QueryUnescape v) as [v' [e1 |]]; [destruct e0; discriminate Hp |].
    injection Hp as <- _.
    destruct (String.eqb_spec k' key) as [-> | Hne].
    + rewrite lookup_insert_eq. simpl. rewrite <- app_assoc. reflexivity.
    + rewrite lookup_insert_ne by exact Hne. reflexivity.
Qed.

(** C9. A field whose type has no case in the type switch and whose
    [encoding] tag is [form]: the raw value goes through [ParseQuery].
    Its error, when there is one, is returned as it is and the field is
    left alone; there is one whenever the raw value holds a [';'] or a
    ['%'] that two hexadecimal digits do not follow.  Otherwise a field
    of type [url.Values] receives the mapping, in which each key has
    the decoded values of its ['&']-separated [key=value] pieces, in
    order. *)
Theorem form_encoding field fieldType val :
  builtin (Type_ fieldType) = false -> Tag_encoding fieldType = "form" ->
  (forall m err, url.ParseQuery val = (m, Some err) ->
     setValueFromEnv L field fieldType val = (field, Returns (Some err)))
  /\ (strings.ContainsByte val ";" = true \/ malformedEscape val = true ->
      exists err, setValueFromEnv L field fieldType val = (field, Returns (Some err)))
  /\ (forall m, url.ParseQuery val = (m, None) -> Type_ fieldType = TValues ->
      setValueFromEnv L field fieldType val = (VValues m, Returns None)
      /\ forall key, default [] (m !! key) = valuesOf key (strings.Split val "&")).
Proof.
  intros Hb Henc.
  assert (Hfail : forall m err, url.ParseQuery val = (m, Some err) ->
            setValueFromEnv L field fieldType val = (field, Returns (Some err))).
  { intros m err Hq. unfold setValueFromEnv. rewrite Henc, Hq.
    destruct (Type_ fieldType); try discriminate Hb; reflexivity. }
  split; [exact Hfail | split].
  - intros Hbad. destruct (ParseQuery_refuses val Hbad) as [err Herr].
    exists err. destruct (url.ParseQuery val) as [m e] eqn:Hq. simpl in Herr. subst e.
    apply (Hfail m err eq_refl).
  - intros m Hq Hty. split.
    + unfold setValueFromEnv. rewrite Henc, Hq, Hty. reflexivity.
    + intros key. unfold url.ParseQuery in Hq.
      rewrite (fold_values _ _ _ _ Hq key). rewrite lookup_empty. reflexivity.
Qed.

(** *** The walk where it is not left early *)

Lemma append_assoc (a b c : string) : (a +:+ b) +:+ c = a +:+ (b +:+ c).
Proof.
  induction a as [| x a IH]; [reflexivity |].
  change (String x ((a +:+ b) +:+ c) = String x (a +:+ (b +:+ c))). rewrite IH. reflexivity.
Qed.

Lemma append_nil_r (a : string) : a +:+ EmptyString = a.
Proof.
  induction a as [| x a IH]; [reflexivity |].
  change (String x (a +:+ EmptyString) = String x a). rewrite IH. reflexivity.
Qed.

Lemma buildMessage_lines (failed : list (string * error)) : forall builder,
  fold_left (fun builder err => builder +:+ (Error L err +:+ newline))
    (map (fun f => wrapKey L f.1 f.2) failed) builder
  = builder +:+ joinLines (map (line L) failed).
Proof.
  induction failed as [| [key cause] failed IH]; intros builder; simpl.
  - rewrite append_nil_r. reflexivity.
  - rewrite IH, append_assoc. f_equal. f_equal. unfold line. simpl.
    rewrite !append_assoc. reflexivity.
Qed.

(** The loop over fields that all pass goes through them: it appends
    the failures of the leaves in order, leaves each field as [after] says,
    looks up the keys of [lookups], and goes on with the fields that
    follow. *)
Lemma parseFields_app pre : forall rest errs,
  forallb (passes L environ) pre = true ->
  parseFields L environ (ParseElem L environ) (pre ++ rest) errs
  = let '(fl, rest', keys) :=
      parseFields L environ (ParseElem L environ) rest
        (errs ++ map (fun f => wrapKey L f.1 f.2) (failures L environ pre)) in
    (fl, map (after L environ) pre ++ rest', concat (map (lookups L environ) pre) ++ keys).
Proof.
  induction pre as [| [fieldType field] pre IH]; intros rest errs Hpass.
  - simpl. rewrite app_nil_r.
    destruct (parseFields _ _ _ rest errs) as [[fl rest'] keys]. reflexivity.
  - simpl forallb in Hpass. apply andb_true_iff in Hpass as [Hf Hpre].
    unfold failures. simpl omap. simpl map. simpl concat. rewrite <- app_comm_cons.
    unfold passes in Hf. unfold failure, after, lookups, leaf.
    destruct (CanSet fieldType) eqn:Hset; simpl negb in *; cbv iota in *.
    2:{ rewrite parseFields_unsettable by exact Hset. rewrite (IH rest errs Hpre).
        destruct (parseFields _ _ _ rest _) as [[fl rest'] keys]. reflexivity. }
    destruct (nested fieldType) eqn:Hnest; simpl negb in *; simpl andb in *; cbv iota in *.
    { rewrite parseFields_nested by assumption.
      destruct (ParseElem L environ (Type_ fieldType) field) as [[r field'] keys0].
      simpl in Hf |- *. destruct r as [[e |] |]; try discriminate Hf.
      rewrite (IH rest errs Hpre).
      destruct (parseFields _ _ _ rest _) as [[fl rest'] keys]. simpl.
      rewrite <- app_assoc. reflexivity. }
    destruct (skipKey (Tag_env fieldType)) eqn:Hskip; simpl negb in *; cbv iota in *.
    { rewrite parseFields_skipped by assumption. rewrite (IH rest errs Hpre).
      destruct (parseFields _ _ _ rest _) as [[fl rest'] keys]. reflexivity. }
    destruct (environ !! Tag_env fieldType) as [val |] eqn:Hlook; [| discriminate Hf].
    rewrite (parseFields_leaf _ _ _ _ _ val) by assumption.
    destruct (setValueFromEnv L field fieldType val) as [field' r].
    simpl in Hf |- *. destruct r as [[cause |] |]; try discriminate Hf.
    + rewrite (IH rest _ Hpre). simpl. rewrite <- app_assoc.
      destruct (parseFields _ _ _ rest _) as [[fl rest'] keys]. reflexivity.
    + rewrite (IH rest _ Hpre).
      destruct (parseFields _ _ _ rest _) as [[fl rest'] keys]. reflexivity.
Qed.

Lemma parseFields_through fields errs :
  forallb (passes L environ) fields = true ->
  parseFields L environ (ParseElem L environ) fields errs
  = (Through (errs ++ map (fun f => wrapKey L f.1 f.2) (failures L environ fields)),
     map (after L environ) fields,
     concat (map (lookups L environ) fields)).
Proof.
  intros Hpass. rewrite <- (app_nil_r fields) at 1.
  rewrite (parseFields_app fields [] errs Hpass). simpl. rewrite !app_nil_r. reflexivity.
Qed.

(** An error of the walk of a nested struct, whatever it is, leaves the
    loop of the caller at that field. *)
Lemma nested_error_returned pre outerType inner post errs err inner' keys :
  forallb (passes L environ) pre = true ->
  CanSet outerType = true -> nested outerType = true ->
  ParseElem L environ (Type_ outerType) inner = (Returns (Some err), inner', keys) ->
  parseFields L environ (ParseElem L environ) (pre ++ (outerType, inner) :: post) errs
  = (Left err, map (after L environ) pre ++ (outerType, inner') :: post,
     concat (map (lookups L environ) pre) ++ keys).
Proof.
  intros Hpre Hset Hnest Hinner.
  rewrite (parseFields_app pre _ errs Hpre).
  rewrite parseFields_nested by assumption. rewrite Hinner. reflexivity.
Qed.

Lemma Parse_struct fields :
  Parse L environ (PtrTo TStruct (VStruct fields))
  = let '(fl, fields', keys) := parseFields L environ (ParseElem L environ) fields [] in
    (finish L fl, PtrTo TStruct (VStruct fields'), keys).
Proof.
  unfold Parse. rewrite ParseElem_unfold. simpl.
  destruct (parseFields _ _ _ fields []) as [[fl fields'] keys]. reflexivity.
Qed.

(** The report of a call of [Parse] whose loop is not left early, that
    is with no missing key, no error from a nested struct and no panic: it
    returns nil when no leaf failed, and otherwise one error whose text is
    the banner followed by one line ["env 'key': cause"] for each failure,
    in declaration order.  Each field holds what its turn left in it; a
    leaf whose conversion returned nil holds the converted value. *)
Theorem aggregated_report fields :
  forallb (passes L environ) fields = true ->
  Parse L environ (PtrTo TStruct (VStruct fields))
  = (Returns (match failures L environ fields with
              | [] => None
              | failed => Some (aggregated L failed)
              end),
     PtrTo TStruct (VStruct (map (after L environ) fields)),
     concat (map (lookups L environ) fields))
  /\ forall (i : nat) fieldType field val v,
      fields !! i = Some (fieldType, field) ->
      leaf fieldType = true ->
      environ !! Tag_env fieldType = Some val ->
      setValueFromEnv L field fieldType val = (v, Returns None) ->
      map (after L environ) fields !! i = Some (fieldType, v).
Proof.
  intros Hpass. split.
  - rewrite Parse_struct, (parseFields_through fields [] Hpass). simpl.
    f_equal. f_equal. f_equal. unfold report, aggregated, buildMessage.
    destruct (failures L environ fields) as [| failed rest]; [reflexivity |].
    rewrite buildMessage_lines. reflexivity.
  - intros i fieldType field val v Hi Hleaf Hlook Hconv.
    change (map (after L environ) fields) with (after L environ <$> fields).
    rewrite list_lookup_fmap, Hi. simpl. unfold leaf in Hleaf.
    apply andb_true_iff in Hleaf as [Hleaf Hskip].
    apply andb_true_iff in Hleaf as [Hset Hnest].
    apply negb_true_iff in Hskip, Hnest.
    rewrite Hset, Hnest, Hskip, Hlook, Hconv. reflexivity.
Qed.

Lemma not_nested fieldType :
  Anonymous fieldType = false -> skipKey (Tag_env fieldType) = false ->
  nested fieldType = false.
Proof. intros Ha Hs. unfold nested. rewrite Ha, Hs, andb_false_r. reflexivity. Qed.

(** C2, as the code has it. The walk reaches a field that can be set,
    is not embedded and has a key, and the key is not in the environment:
    [Parse] returns
    the error "missing key environment" and nothing else, whatever
    failures the fields before it gave; the field and the fields after it
    are as they were, and the key is the last one looked up.  A caller
    that walked into a struct where this happened returns the same error
    at once, its later fields unvisited. *)
Theorem missing_key_stops_walk pre fieldType field post :
  forallb (passes L environ) pre = true ->
  CanSet fieldType = true -> Anonymous fieldType = false ->
  skipKey (Tag_env fieldType) = false ->
  environ !! Tag_env fieldType = None ->
  Parse L environ (PtrTo TStruct (VStruct (pre ++ (fieldType, field) :: post)))
  = (Returns (Some (missingKey (Tag_env fieldType))),
     PtrTo TStruct (VStruct (map (after L environ) pre ++ (fieldType, field) :: post)),
     concat (map (lookups L environ) pre) ++ [Tag_env fieldType])
  /\ forall outerPre outerType inner inner' keys outerPost,
      forallb (passes L environ) outerPre = true ->
      CanSet outerType = true -> nested outerType = true ->
      ParseElem L environ (Type_ outerType) inner
      = (Returns (Some (missingKey (Tag_env fieldType))), inner', keys) ->
      Parse L environ (PtrTo TStruct (VStruct (outerPre ++ (outerType, inner) :: outerPost)))
      = (Returns (Some (missingKey (Tag_env fieldType))),
         PtrTo TStruct
           (VStruct (map (after L environ) outerPre ++ (outerType, inner') :: outerPost)),
         concat (map (lookups L environ) outerPre) ++ keys).
Proof.
  intros Hpre Hset Hanon Hskip Hlook. split.
  - rewrite Parse_struct, (parseFields_app pre _ [] Hpre).
    rewrite parseFields_missing by (auto using not_nested). reflexivity.
  - intros outerPre outerType inner inner' keys outerPost Hpass Hset' Hnest Hinner.
    rewrite Parse_struct.
    rewrite (nested_error_returned outerPre outerType inner outerPost []
               (missingKey (Tag_env fieldType)) inner' keys Hpass Hset' Hnest Hinner).
    reflexivity.
Qed.

End Properties.

(** ** The properties at concrete inputs *)

Lemma Parse_invalid_target_witness :
  pointsToStruct (PtrTo TInt (VInt 7)) = false
  /\ Parse closedLibs {["INT_VAL" := "2"]} (PtrTo TInt (VInt 7))
     = (Returns (Some invalidTarget), PtrTo TInt (VInt 7), []).
Proof.
  split; [reflexivity |].
  apply (Parse_invalid_target closedLibs {["INT_VAL" := "2"]} (PtrTo TInt (VInt 7))).
  reflexivity.
Defined.

Lemma unhandled_type_is_noop_witness :
  let fieldType := mkField "Small" (TOther "int8") "SMALL" "yaml" false true in
  setValueFromEnv closedLibs (VOther "0") fieldType "12" = (VOther "0", Returns None)
  /\ parseFields closedLibs {["SMALL" := "12"]} (ParseElem closedLibs {["SMALL" := "12"]})
       [(fieldType, VOther "0")] []
     = (Through [], [(fieldType, VOther "0")], ["SMALL"]).
Proof.
  intros fieldType.
  pose proof (unhandled_type_is_noop closedLibs {["SMALL" := "12"]} (VOther "0") fieldType "12"
                eq_refl eq_refl) as [Hset Hloop].
  split; [exact Hset |].
  rewrite Hloop by (vm_compute; reflexivity). reflexivity.
Defined.

Lemma narrow_field_keeps_low_bits_witness :
  setValueFromEnv closedLibs (VUint 0) (envField "Port" TUint32 "PORT") "4294967297"
  = (VUint 1, Returns None)
  /\ exists w,
      setValueFromEnv closedLibs (VInt 0) (envField "Offset" TInt32 "OFFSET") "-2147483649"
      = (VInt w, Returns None)
      /\ - 2 ^ 31 <= w < 2 ^ 31 /\ w mod 2 ^ 32 = (-2147483649) mod 2 ^ 32.
Proof.
  split.
  - apply (narrow_field_keeps_low_bits closedLibs (VUint 0) (envField "Port" TUint32 "PORT")
             "4294967297" 4294967297); [reflexivity | reflexivity | lia].
  - apply (narrow_field_keeps_low_bits closedLibs (VInt 0) (envField "Offset" TInt32 "OFFSET")
             "-2147483649" (-2147483649)); [reflexivity | reflexivity | lia | lia].
Defined.

(** C4. A scalar [uint32] field given a value one above [2^32 - 1]:
    line 96 parses at 64 bits and [SetUint] keeps the low 32 bits, so
    [Parse] returns nil and the field, which held 7, holds 0; the same
    string in a [[]uint32] field, parsed at 32 bits on line 198, is
    refused as out of range. *)
Theorem uint32_field_stores_wide_value :
  Parse closedLibs {["ID" := "4294967296"]}
    (PtrTo TStruct (VStruct [(envField "Id" TUint32 "ID", VUint 7)]))
  = (Returns None, PtrTo TStruct (VStruct [(envField "Id" TUint32 "ID", VUint 0)]), ["ID"])
  /\ setValueFromEnv closedLibs (VUints []) (envField "Ids" TUint32s "IDS") "4294967296"
     = (VUints [], Returns (Some (NumError (strconv.rangeError "ParseUint" "4294967296")))).
Proof. split; vm_compute; reflexivity. Qed.

Lemma slice_conversion_witness :
  setValueFromEnv closedLibs (VUints [9]) (envField "Ids" TUint32s "IDS") "1, 2 ,x,4"
  = (VUints [9], Returns (Some (NumError (strconv.syntaxError "ParseUint" "x"))))
  /\ setValueFromEnv closedLibs (VStrings []) (envField "Hosts" TStrings "HOSTS") "a, b"
     = (VStrings ["a"; " b"], Returns None).
Proof.
  pose proof (slice_conversion closedLibs (VUints [9]) (envField "Ids" TUint32s "IDS")
                "1, 2 ,x,4") as [Hnum _].
  pose proof (slice_conversion closedLibs (VStrings []) (envField "Hosts" TStrings "HOSTS")
                "a, b") as [_ Hstr].
  split.
  - rewrite (Hnum _ _ eq_refl). vm_compute. reflexivity.
  - rewrite (Hstr eq_refl). vm_compute. reflexivity.
Defined.

(** C5 as stated fails. The elements of a [[]string] field are not
    trimmed: [" a, b "] gives [" a"] and [" b "], not ["a"] and ["b"].  And
    an element of a [[]uint32] field is not converted by the rule of a
    scalar [uint32] field: the scalar accepts ["4294967296"], the element
    is out of range. *)
Lemma string_elements_not_trimmed :
  let got := setValueFromEnv closedLibs (VStrings []) (envField "Hosts" TStrings "HOSTS") " a, b " in
  got = (VStrings [" a"; " b "], Returns None)
  /\ got <> (VStrings (map strings.TrimSpace (strings.Split " a, b " ",")), Returns None)
  /\ setValueFromEnv closedLibs (VUint 0) (envField "Id" TUint32 "ID") "4294967296"
     = (VUint 0, Returns None)
  /\ setValueFromEnv closedLibs (VUints []) (envField "Ids" TUint32s "IDS") "4294967296"
     = (VUints [], Returns (Some (NumError (strconv.rangeError "ParseUint" "4294967296")))).
Proof.
  repeat split; try (vm_compute; reflexivity).
  vm_compute. discriminate.
Qed.

Lemma failure_leaves_field_witness :
  setValueFromEnv closedLibs (VInts [4; 5]) (envField "Ports" TInts "PORTS") "1,2,3e"
  = (VInts [4; 5], Returns (Some (NumError (strconv.syntaxError "Atoi" "3e")))).
Proof.
  set (got := setValueFromEnv closedLibs (VInts [4; 5]) (envField "Ports" TInts "PORTS") "1,2,3e").
  assert (Hr : got.2 = Returns (Some (NumError (strconv.syntaxError "Atoi" "3e"))))
    by (vm_compute; reflexivity).
  assert (Hf : got.1 = VInts [4; 5]).
  { apply (proj1 (failure_leaves_field closedLibs ∅ (VInts [4; 5])
                    (envField "Ports" TInts "PORTS") "1,2,3e")
             (or_introl eq_refl) got.1 got.2).
    - apply surjective_pairing.
    - rewrite Hr. discriminate. }
  rewrite (surjective_pairing got), Hf, Hr. reflexivity.
Defined.

(** C6 as stated fails for the [xml] encoding. The field holds a struct
    with [Field = ""] and [Count = 0]; decoding fails at [Count], the
    call returns the error, and [Field] holds ["x"]. *)
Lemma xml_failure_writes_field :
  let Field := envField "Field" TString "" in
  let Count := envField "Count" TInt "" in
  let before := VStruct [(Field, VString ""); (Count, VInt 0)] in
  let after := VStruct [(Field, VString "x"); (Count, VInt 0)] in
  setValueFromEnv xmlLibs before (mkField "XMLStruct" TStruct "XML_VAL" "xml" false true)
    xmlDocument
  = (after, Returns (Some (NumError (strconv.syntaxError "ParseInt" "y"))))
  /\ after <> before.
Proof. split; [vm_compute; reflexivity | discriminate]. Qed.

Lemma form_encoding_witness :
  let fieldType := mkField "FormVal" TValues "FORM_DATA" "form" false true in
  (exists err,
     setValueFromEnv closedLibs (VValues ∅) fieldType "field1=value;field2=val"
     = (VValues ∅, Returns (Some err)))
  /\ (exists err,
        setValueFromEnv closedLibs (VValues ∅) fieldType "field1=100%" = (VValues ∅, Returns (Some err)))
  /\ setValueFromEnv closedLibs (VValues ∅) fieldType "field1=value&field2=val"
     = (VValues (<["field2" := ["val"]]> (<["field1" := ["value"]]> ∅)), Returns None).
Proof.
  intros fieldType.
  pose proof (fun val => form_encoding closedLibs (VValues ∅) fieldType val eq_refl eq_refl)
    as Hform.
  split; [| split].
  - apply (proj1 (proj2 (Hform "field1=value;field2=val"))). left. reflexivity.
  - apply (proj1 (proj2 (Hform "field1=100%"))). right. reflexivity.
  - apply (proj2 (proj2 (Hform "field1=value&field2=val"))
             (<["field2" := ["val"]]> (<["field1" := ["value"]]> ∅))).
    + vm_compute. reflexivity.
    + reflexivity.
Defined.

Lemma missing_key_stops_walk_witness :
  let A := (envField "A" TInt "A", VInt 0) in
  let B := (envField "B" TInt "B", VInt 0) in
  let C := (envField "C" TString "C", VString "") in
  Parse closedLibs (list_to_map [("A", "x"); ("C", "ok")]) (PtrTo TStruct (VStruct [A; B; C]))
  = (Returns (Some (errorString "missing B environment")),
     PtrTo TStruct (VStruct [A; B; C]), ["A"; "B"]).
Proof.
  intros A B C.
  etransitivity.
  - apply (missing_key_stops_walk closedLibs (list_to_map [("A", "x"); ("C", "ok")])
             [A] (envField "B" TInt "B") (VInt 0) [C]); vm_compute; reflexivity.
  - vm_compute. reflexivity.
Defined.

(** C2 as stated fails for an embedded field. The embedded struct
    carries the tag [env:"NKEY"], it can be set, and [NKEY] is not in the
    environment; line 39 walks into the struct before any key is read, so
    [Parse] returns nil, the nested leaf is populated and [NKEY] is never
    looked up. *)
Lemma embedded_key_not_consulted :
  let Nested v := VStruct [(envField "Value" TString "NESTED", VString v)] in
  let embedded := mkField "Nested" TStruct "NKEY" EmptyString true true in
  let environ : gmap string string := {["NESTED" := "nested value"]} in
  CanSet embedded = true /\ skipKey (Tag_env embedded) = false
  /\ environ !! Tag_env embedded = None
  /\ Parse closedLibs environ (PtrTo TStruct (VStruct [(embedded, Nested "")]))
     = (Returns None, PtrTo TStruct (VStruct [(embedded, Nested "nested value")]), ["NESTED"]).
Proof. repeat split; vm_compute; reflexivity. Qed.

Lemma aggregated_report_witness :
  let A := envField "A" TInt "A" in
  let B := envField "B" TBool "B" in
  let C := envField "C" TString "C" in
  Parse closedLibs (list_to_map [("A", "x"); ("B", "maybe"); ("C", "ok")])
    (PtrTo TStruct (VStruct [(A, VInt 0); (B, VBool false); (C, VString "")]))
  = (Returns (Some (aggregated closedLibs
                      [("A", NumError (strconv.syntaxError "Atoi" "x"));
                       ("B", NumError (strconv.syntaxError "ParseBool" "maybe"))])),
     PtrTo TStruct (VStruct [(A, VInt 0); (B, VBool false); (C, VString "ok")]),
     ["A"; "B"; "C"]).
Proof.
  intros A B C.
  etransitivity.
  - apply (aggregated_report closedLibs
             (list_to_map [("A", "x"); ("B", "maybe"); ("C", "ok")])
             [(A, VInt 0); (B, VBool false); (C, VString "")]).
    vm_compute. reflexivity.
  - vm_compute. reflexivity.
Defined.

(** C1. A struct with a leaf [A], a nested struct [N] holding a leaf
    [B], and a leaf [C]; the values of [A] and [B] do not parse and the
    value of [C] does.  Line 41 returns the error of the nested call as it
    is: the text lists the failure of [B] alone, the failure of [A]
    appended before is dropped, and [C] is neither looked up nor set. *)
Theorem nested_failure_returned_at_once :
  let N := VStruct [(envField "B" TInt "B", VInt 0)] in
  let fields :=
    [(envField "A" TInt "A", VInt 0); (envField "N" TStruct "", N);
     (envField "C" TInt "C", VInt 0)] in
  Parse closedLibs (list_to_map [("A", "x"); ("B", "y"); ("C", "5")])
    (PtrTo TStruct (VStruct fields))
  = (Returns (Some (aggregated closedLibs [("B", NumError (strconv.syntaxError "Atoi" "y"))])),
     PtrTo TStruct (VStruct fields), ["A"; "B"]).
Proof. vm_compute. reflexivity. Qed.

(** C3. A struct with a leaf [A] and a nested struct [N] holding a
    leaf [B]; both leaves fail to convert, no key is missing and the
    target is valid.  Line 41 returns the error of the nested call as it
    is: the text holds the line of [B] alone, not the lines of [A] and
    [B]; the failure of [A], appended to the errors of the caller before,
    is dropped. *)
Lemma outer_failures_dropped :
  let N := VStruct [(envField "B" TInt "B", VInt 0)] in
  let fields := [(envField "A" TInt "A", VInt 0); (envField "N" TStruct "", N)] in
  let failedA := ("A", NumError (strconv.syntaxError "Atoi" "x")) in
  let failedB := ("B", NumError (strconv.syntaxError "Atoi" "y")) in
  (Parse closedLibs (list_to_map [("A", "x"); ("B", "y")]) (PtrTo TStruct (VStruct fields))).1.1
  = Returns (Some (aggregated closedLibs [failedB]))
  /\ aggregated closedLibs [failedB] <> aggregated closedLibs [failedA; failedB].
Proof. split; [vm_compute; reflexivity | vm_compute; discriminate]. Qed.

(** ** Further properties of the parser *)

(** *** The integer parsers, exactly *)

Lemma byte_val_bound c : 0 <= byte_val c < 256.
Proof.
  unfold byte_val. pose proof (nat_ascii_bounded c). lia.
Qed.

Lemma parseUintLoop_sound s : forall n v maxVal,
  0 <= n <= maxVal -> maxVal < 2 ^ 64 ->
  strconv.parseUintLoop s n (strconv.maxUint64 / 10 + 1) maxVal = (v, None) ->
  digitsValue s n = Some v /\ v <= maxVal.
Proof.
  induction s as [| c s IH]; simpl; intros n v maxVal Hn Hmax Hloop.
  - injection Hloop as <-. split; [reflexivity | lia].
  - change (strconv.maxUint64 / 10 + 1) with 1844674407370955162 in *.
    change (2 ^ 64) with 18446744073709551616 in *.
    unfold strconv.base in Hloop.
    destruct (is_digit c) eqn:Hc.
    + pose proof (is_digit_range c Hc) as Hr.
      destruct (byte_val c - 48 >=? 10); [discriminate Hloop |].
      destruct (n >=? 1844674407370955162) eqn:Hcut; [discriminate Hloop |].
      rewrite Z.geb_leb, Z.leb_gt in Hcut.
      rewrite (Z.mod_small (n * 10)) in Hloop by lia.
      destruct (Z.ltb_spec ((n * 10 + (byte_val c - 48)) mod 18446744073709551616) (n * 10))
        as [Hwrap | Hwrap]; [discriminate Hloop |].
      simpl in Hloop.
      destruct (Z.lt_ge_cases (n * 10 + (byte_val c - 48)) 18446744073709551616) as [Hfit | Hbig].
      * rewrite (Z.mod_small (n * 10 + (byte_val c - 48))) in Hloop, Hwrap by lia.
        destruct (n * 10 + (byte_val c - 48) >? maxVal) eqn:Hgt; [discriminate Hloop |].
        rewrite Z.gtb_ltb, Z.ltb_ge in Hgt.
        apply IH in Hloop; [exact Hloop | lia | lia].
      * exfalso.
        assert (Hm : (n * 10 + (byte_val c - 48)) mod 18446744073709551616
                     = n * 10 + (byte_val c - 48) - 18446744073709551616).
        { symmetry. apply (Z.mod_unique_pos _ _ 1); lia. }
        lia.
    + destruct ((97 <=? lower c) && (lower c <=? 122)) eqn:Hl; [| discriminate Hloop].
      apply andb_true_iff in Hl as [Hl _]. apply Z.leb_le in Hl.
      replace (lower c - 97 + 10 >=? 10) with true in Hloop
        by (symmetry; rewrite Z.geb_leb; apply Z.leb_le; lia).
      discriminate Hloop.
Qed.

(** What the digit loop returns beside an error. *)
Lemma parseUintLoop_error s : forall n u e maxVal cutoff,
  strconv.parseUintLoop s n cutoff maxVal = (u, Some e) ->
  (e = strconv.ErrRange /\ u = maxVal) \/ (e = strconv.ErrSyntax /\ u = 0).
Proof.
  induction s as [| c s IH]; simpl; intros n u e maxVal cutoff Hloop; [discriminate Hloop |].
  destruct (if is_digit c then _ else _) as [d |]; [| injection Hloop as <- <-; auto].
  destruct (d >=? strconv.base); [injection Hloop as <- <-; auto |].
  destruct (n >=? cutoff); [injection Hloop as <- <-; auto |].
  destruct (_ || _); [injection Hloop as <- <-; auto |].
  eapply IH, Hloop.
Qed.

(** [ParseUint] returns a value without an error exactly on the
    unsigned decimals that fit the bit size. *)
Lemma ParseUint_exact s bitSize v :
  0 <= bitSize <= 64 ->
  strconv.ParseUint s bitSize = (v, None)
  <-> unsignedDecimal s = Some v /\ v < 2 ^ bitsOf bitSize.
Proof.
  intros Hb. unfold strconv.ParseUint, bitsOf.
  assert (Hbits : 0 < (if bitSize =? 0 then strconv.IntSize else bitSize) <= 64).
  { destruct (Z.eqb_spec bitSize 0); unfold strconv.IntSize; lia. }
  set (bits := if bitSize =? 0 then strconv.IntSize else bitSize) in *.
  assert (Hpow : 0 < 2 ^ bits <= 2 ^ 64).
  { split; [apply Z.pow_pos_nonneg; lia | apply Z.pow_le_mono_r; lia]. }
  replace ((bitSize <? 0) || (bitSize >? 64)) with false
    by (symmetry; apply orb_false_iff; split;
        [apply Z.ltb_ge; lia | rewrite Z.gtb_ltb; apply Z.ltb_ge; lia]).
  destruct (String.eqb_spec s EmptyString) as [-> | Hne].
  { split; [discriminate | intros [H _]; discriminate H]. }
  split.
  - intros Hparse.
    destruct (strconv.parseUintLoop s 0 _ _) as [n [e |]] eqn:Hloop; [discriminate Hparse |].
    injection Hparse as ->.
    apply parseUintLoop_sound in Hloop as [Hd Hle]; [| lia | lia].
    split; [| lia]. destruct s; [congruence | exact Hd].
  - intros [Hs Hv]. apply unsignedDecimal_digits in Hs as [Hd H0].
    rewrite (parseUintLoop_digits s 0 v (2 ^ bits - 1)); [reflexivity | lia | exact Hd | lia | lia].
Qed.

Lemma ParseUint_range s bitSize u e :
  bitSize = 0 \/ bitSize = 64 ->
  strconv.ParseUint s bitSize = (u, Some e) -> strconv.Err_ e = strconv.ErrRange ->
  u = 2 ^ 64 - 1.
Proof.
  intros Hb Hparse Hrange. unfold strconv.ParseUint in Hparse.
  destruct (String.eqb s EmptyString); [injection Hparse as <- <-; discriminate Hrange |].
  destruct ((bitSize <? 0) || (bitSize >? 64)); [injection Hparse as <- <-; discriminate Hrange |].
  destruct (strconv.parseUintLoop s 0 _ _) as [n [e' |]] eqn:Hloop; [| discriminate Hparse].
  injection Hparse as <- <-. simpl in Hrange. subst e'.
  apply parseUintLoop_error in Hloop as [[_ ->] | [Hcontra _]]; [| discriminate Hcontra].
  destruct Hb as [-> | ->]; reflexivity.
Qed.

(** The part of [ParseInt] after the sign is picked off: [neg] tells
    whether the sign was ['-'] and [digits] is what follows it. *)
Lemma ParseInt_after_sign (neg : bool) digits s0 bitSize v :
  bitSize = 0 \/ bitSize = 64 ->
  (let '(un, err) := strconv.ParseUint digits bitSize in
   let continue :=
     let bitSize := if bitSize =? 0 then strconv.IntSize else bitSize in
     let cutoff := 2 ^ (bitSize - 1) in
     if negb neg && (un >=? cutoff) then (cutoff - 1, Some (strconv.rangeError "ParseInt" s0))
     else if neg && (un >? cutoff) then (- cutoff, Some (strconv.rangeError "ParseInt" s0))
     else (if neg then - un else un, None) in
   match err with
   | Some e =>
       match strconv.Err_ e with
       | strconv.ErrRange => continue
       | _ => (0, Some (strconv.mkNumError "ParseInt" s0 (strconv.Err_ e)))
       end
   | None => continue
   end) = (v, None)
  <-> exists u, unsignedDecimal digits = Some u /\ v = (if neg then - u else u)
                /\ - 2 ^ 63 <= v < 2 ^ 63.
Proof.
  intros Hb.
  assert (Hcut : 2 ^ ((if bitSize =? 0 then strconv.IntSize else bitSize) - 1)
                 = 9223372036854775808) by (destruct Hb as [-> | ->]; reflexivity).
  assert (Hbits : bitsOf bitSize = 64) by (destruct Hb as [-> | ->]; reflexivity).
  assert (Hb' : 0 <= bitSize <= 64) by lia.
  change (2 ^ 63) with 9223372036854775808.
  destruct (strconv.ParseUint digits bitSize) as [un err] eqn:Hparse. cbv zeta. rewrite Hcut.
  assert (Hok : forall u, unsignedDecimal digits = Some u -> u <= 9223372036854775808 ->
                  err = None /\ un = u).
  { intros u Hu Hle.
    assert (Hp : strconv.ParseUint digits bitSize = (u, None)).
    { apply ParseUint_exact; [exact Hb' |]. rewrite Hbits. split; [exact Hu | lia]. }
    rewrite Hp in Hparse. injection Hparse as <- <-. auto. }
  assert (Hdecide : forall u : Z, 0 <= u ->
    (if negb neg && (u >=? 9223372036854775808)
     then (9223372036854775808 - 1, Some (strconv.rangeError "ParseInt" s0))
     else if neg && (u >? 9223372036854775808)
          then (- 9223372036854775808, Some (strconv.rangeError "ParseInt" s0))
          else (if neg then - u else u, None)) = (v, None)
    <-> v = (if neg then - u else u) /\ - 9223372036854775808 <= v < 9223372036854775808).
  { intros u Hu. destruct neg; simpl negb; simpl andb.
    - destruct (Z.gtb_spec u 9223372036854775808); split;
        [discriminate | lia | intros [= <-]; lia | intros [-> _]; reflexivity].
    - rewrite Z.geb_leb. destruct (Z.leb_spec 9223372036854775808 u); split;
        [discriminate | lia | intros [= <-]; lia | intros [-> _]; reflexivity]. }
  destruct err as [e |].
  - assert (Hnone : forall u, unsignedDecimal digits = Some u ->
                      ~ (- 9223372036854775808 <= (if neg then - u else u) < 9223372036854775808)).
    { intros u Hu Hr.
      pose proof (unsignedDecimal_digits _ _ Hu) as [_ H0].
      destruct (Hok u Hu) as [Hcontra _]; [destruct neg; lia | discriminate Hcontra]. }
    destruct (strconv.Err_ e) eqn:He.
    + split; [discriminate | intros (u & Hu & -> & Hr); destruct (Hnone u Hu Hr)].
    + rewrite (ParseUint_range digits bitSize un e Hb Hparse He).
      rewrite Hdecide by lia. split.
      * intros [-> Hr]. change (2 ^ 64) with 18446744073709551616 in Hr. destruct neg; lia.
      * intros (u & Hu & -> & Hr). destruct (Hnone u Hu Hr).
    + split; [discriminate | intros (u & Hu & -> & Hr); destruct (Hnone u Hu Hr)].
  - apply ParseUint_exact in Hparse as [Hu Hlt]; [| exact Hb'].
    pose proof (unsignedDecimal_digits _ _ Hu) as [_ H0].
    rewrite Hdecide by exact H0. split.
    + intros [-> Hr]. exists un. auto.
    + intros (u & Hu' & -> & Hr). rewrite Hu in Hu'. injection Hu' as <-. auto.
Qed.

Lemma opp_fmap_Some (o : option Z) v :
  Z.opp <$> o = Some v <-> exists u, o = Some u /\ v = - u.
Proof.
  destruct o as [u |]; simpl; split.
  - intros [= <-]. eauto.
  - intros (u' & [= <-] & ->). reflexivity.
  - discriminate.
  - intros (u & Hu & _). discriminate Hu.
Qed.

(** [ParseInt] at 64 bits returns a value without an error exactly on
    the signed decimals that fit 64 bits. *)
Lemma ParseInt_exact s bitSize v :
  bitSize = 0 \/ bitSize = 64 ->
  strconv.ParseInt s bitSize = (v, None)
  <-> signedDecimal s = Some v /\ - 2 ^ 63 <= v < 2 ^ 63.
Proof.
  intros Hb. destruct s as [| c rest].
  { split; [discriminate | intros [H _]; discriminate H]. }
  unfold strconv.ParseInt, signedDecimal.
  destruct (is_byte c 43) eqn:Hplus.
  - assert (Hminus : is_byte c 45 = false)
      by (unfold is_byte in *; apply Z.eqb_eq in Hplus; apply Z.eqb_neq; lia).
    rewrite Hminus, (ParseInt_after_sign false rest (String c rest) bitSize v Hb).
    split; [intros (u & Hu & -> & Hr); auto | intros [Hu Hr]; eauto].
  - destruct (is_byte c 45) eqn:Hminus.
    + rewrite (ParseInt_after_sign true rest (String c rest) bitSize v Hb), opp_fmap_Some.
      split; [intros (u & Hu & -> & Hr); eauto | intros [(u & Hu & ->) Hr]; eauto].
    + rewrite (ParseInt_after_sign false (String c rest) (String c rest) bitSize v Hb).
      split; [intros (u & Hu & -> & Hr); auto | intros [Hu Hr]; eauto].
Qed.

Lemma atoiLoop_sound s : forall n v,
  strconv.atoiLoop s n = Some v -> digitsValue s n = Some v.
Proof.
  induction s as [| c s IH]; simpl; intros n v Hloop; [exact Hloop |].
  pose proof (byte_val_bound c) as Hb.
  destruct ((byte_val c - 48) mod 256 >? 9) eqn:Hch; [discriminate Hloop |].
  rewrite Z.gtb_ltb, Z.ltb_ge in Hch.
  assert (Hd : 48 <= byte_val c <= 57).
  { destruct (Z.lt_ge_cases (byte_val c) 48) as [Hlow | Hhigh].
    - exfalso.
      assert (Hm : (byte_val c - 48) mod 256 = byte_val c - 48 + 256)
        by (symmetry; apply (Z.mod_unique_pos _ _ (-1)); lia).
      lia.
    - rewrite Z.mod_small in Hch by lia. lia. }
  rewrite Z.mod_small in Hloop by lia.
  replace (is_digit c) with true
    by (symmetry; unfold is_digit; apply andb_true_iff; split; apply Z.leb_le; lia).
  apply IH, Hloop.
Qed.

Lemma digitsValue_bound s : forall n v,
  0 <= n -> digitsValue s n = Some v -> v < (n + 1) * 10 ^ Z.of_nat (String.length s).
Proof.
  induction s as [| c s IH]; intros n v Hn Hv.
  - simpl in *. injection Hv as <-. lia.
  - simpl digitsValue in Hv. destruct (is_digit c) eqn:Hc; [| discriminate Hv].
    apply is_digit_range in Hc. apply IH in Hv; [| lia].
    simpl String.length. rewrite Nat2Z.inj_succ, Z.pow_succ_r by lia.
    assert (Hp : 0 < 10 ^ Z.of_nat (String.length s)) by (apply Z.pow_pos_nonneg; lia).
    nia.
Qed.

Lemma short_decimal_fits s v :
  Z.of_nat (String.length s) < 19 -> digitsValue s 0 = Some v -> 0 <= v < 2 ^ 63.
Proof.
  intros Hlen Hv. split; [apply (digitsValue_ge s 0 v); [lia | exact Hv] |].
  apply digitsValue_bound in Hv; [| lia].
  assert (Hp : 10 ^ Z.of_nat (String.length s) <= 10 ^ 18) by (apply Z.pow_le_mono_r; lia).
  change (10 ^ 18) with 1000000000000000000 in Hp.
  change (2 ^ 63) with 9223372036854775808. lia.
Qed.

(** [Atoi] returns a value without an error exactly on the signed
    decimals that fit 64 bits. *)
Lemma Atoi_exact s v :
  strconv.Atoi s = (v, None) <-> signedDecimal s = Some v /\ - 2 ^ 63 <= v < 2 ^ 63.
Proof.
  split; [| intros [Hs Hv]; apply Atoi_decimal; assumption].
  unfold strconv.Atoi.
  destruct ((0 <? Z.of_nat (String.length s)) && (Z.of_nat (String.length s) <? 19)) eqn:Hlen.
  2:{ destruct (strconv.ParseInt s 0) as [i64 [e |]] eqn:Hparse; [discriminate |].
      intros [= <-]. apply (ParseInt_exact s 0 i64); auto. }
  apply andb_true_iff in Hlen as [_ Hlen]. apply Z.ltb_lt in Hlen.
  destruct s as [| c rest]; [discriminate |].
  unfold signedDecimal. simpl String.length in Hlen. rewrite Nat2Z.inj_succ in Hlen.
  destruct (is_byte c 45) eqn:Hminus.
  - rewrite orb_true_l, andb_true_l.
    destruct (Z.of_nat (String.length rest) <? 1) eqn:Hempty; [discriminate |].
    destruct (strconv.atoiLoop rest 0) as [n |] eqn:Hloop; [| discriminate].
    intros [= <-]. apply atoiLoop_sound in Hloop.
    pose proof (short_decimal_fits rest n ltac:(lia) Hloop) as Hfit.
    split; [| lia].
    destruct rest; [discriminate Hempty |]. unfold unsignedDecimal. rewrite Hloop. reflexivity.
  - destruct (is_byte c 43) eqn:Hplus.
    + rewrite orb_true_r, andb_true_l.
      destruct (Z.of_nat (String.length rest) <? 1) eqn:Hempty; [discriminate |].
      destruct (strconv.atoiLoop rest 0) as [n |] eqn:Hloop; [| discriminate].
      intros [= <-]. apply atoiLoop_sound in Hloop.
      pose proof (short_decimal_fits rest n ltac:(lia) Hloop) as Hfit.
      split; [| lia].
      destruct rest; [discriminate Hempty |]. exact Hloop.
    + rewrite orb_false_l, andb_false_l.
      destruct (strconv.atoiLoop (String c rest) 0) as [n |] eqn:Hloop; [| discriminate].
      intros [= <-]. apply atoiLoop_sound in Hloop.
      assert (Hfit : 0 <= n < 2 ^ 63).
      { apply (short_decimal_fits (String c rest)); [| exact Hloop].
        simpl String.length. rewrite Nat2Z.inj_succ. lia. }
      split; [exact Hloop | lia].
Qed.

Lemma ParseInt_error_names s bitSize u e :
  strconv.ParseInt s bitSize = (u, Some e) ->
  strconv.Func e = "ParseInt" /\ strconv.Num e = s.
Proof.
  unfold strconv.ParseInt. destruct s as [| c rest]; [intros [= <- <-]; auto |].
  destruct (if is_byte c 43 then _ else _) as [neg digits].
  destruct (strconv.ParseUint digits bitSize) as [un [e' |]]; cbv zeta.
  - destruct (strconv.Err_ e'); try (intros [= <- <-]; auto).
    destruct (negb neg && _); [intros [= <- <-]; auto |].
    destruct (neg && _); [intros [= <- <-]; auto | discriminate].
  - destruct (negb neg && _); [intros [= <- <-]; auto |].
    destruct (neg && _); [intros [= <- <-]; auto | discriminate].
Qed.

(** Every error of [Atoi] names [Atoi] and the string it was given. *)
Lemma Atoi_error_names s u e :
  strconv.Atoi s = (u, Some e) -> strconv.Func e = "Atoi" /\ strconv.Num e = s.
Proof.
  unfold strconv.Atoi. destruct (_ && _).
  - destruct s as [| c rest]; [intros [= <- <-]; auto |].
    destruct (_ && _); [intros [= <- <-]; auto |].
    destruct (strconv.atoiLoop _ 0); [discriminate | intros [= <- <-]; auto].
  - destruct (strconv.ParseInt s 0) as [i64 [e' |]] eqn:Hparse; [| discriminate].
    intros [= <- <-]. apply ParseInt_error_names in Hparse as [_ Hnum]. auto.
Qed.

(** Every error of [ParseUint] names [ParseUint] and the string it was
    given. *)
Lemma ParseUint_error_names s bitSize u e :
  strconv.ParseUint s bitSize = (u, Some e) ->
  strconv.Func e = "ParseUint" /\ strconv.Num e = s.
Proof.
  unfold strconv.ParseUint.
  destruct (String.eqb s EmptyString); [intros [= <- <-]; auto |].
  destruct (_ || _); [intros [= <- <-]; auto |].
  destruct (strconv.parseUintLoop s 0 _ _) as [n [e' |]]; [intros [= <- <-]; auto | discriminate].
Qed.

Lemma int32_fits x : - 2 ^ 31 <= x < 2 ^ 31 -> int32 x = x.
Proof. intros Hx. unfold int32. rewrite Z.mod_small by lia. lia. Qed.

(** X1. A scalar [int], [int32] or [int64] field (lines 88 to 93) is
    set exactly when the raw value is a signed decimal, an optional sign
    and then digits, whose value fits 64 bits, and then it holds that value
    converted to its type; a value that fits the type is held as it is.  In
    every other case the field is left alone and the cause is a
    [NumError] that names [Atoi] and the raw value. *)
Theorem signed_field_exact (L : Libs) field fieldType val :
  Type_ fieldType = TInt \/ Type_ fieldType = TInt32 \/ Type_ fieldType = TInt64 ->
  (forall field',
     setValueFromEnv L field fieldType val = (field', Returns None)
     <-> exists v, signedDecimal val = Some v /\ - 2 ^ 63 <= v < 2 ^ 63
                   /\ field' = SetInt (Type_ fieldType) v)
  /\ (forall field' r,
        setValueFromEnv L field fieldType val = (field', r) -> r <> Returns None ->
        field' = field
        /\ exists kind, r = Returns (Some (NumError (strconv.mkNumError "Atoi" val kind))))
  /\ (forall v, Type_ fieldType <> TInt32 \/ - 2 ^ 31 <= v < 2 ^ 31 ->
        SetInt (Type_ fieldType) v = VInt v).
Proof.
  intros Hty.
  assert (Hset : setValueFromEnv L field fieldType val
                 = match strconv.Atoi val with
                   | (_, Some err) => (field, Returns (Some (NumError err)))
                   | (i, None) => (SetInt (Type_ fieldType) i, Returns None)
                   end).
  { unfold setValueFromEnv. destruct Hty as [-> | [-> | ->]]; reflexivity. }
  rewrite Hset. destruct (strconv.Atoi val) as [i [e |]] eqn:Hatoi.
  - split; [| split].
    + intros field'. split; [discriminate |].
      intros (v & Hv & Hr & _). apply (conj Hv), Atoi_exact in Hr.
      rewrite Hr in Hatoi. discriminate Hatoi.
    + intros field' r [= <- <-] _. split; [reflexivity |].
      apply Atoi_error_names in Hatoi as [Hf Hn]. exists (strconv.Err_ e).
      destruct e as [f n k]. simpl in *. subst. reflexivity.
    + intros v [Hne | Hr]; unfold SetInt;
        destruct (Type_ fieldType); try reflexivity; [congruence | rewrite int32_fits; auto].
  - apply Atoi_exact in Hatoi as [Hv Hr]. split; [| split].
    + intros field'. split.
      * intros [= <-]. eauto.
      * intros (v & Hv' & _ & ->). rewrite Hv in Hv'. injection Hv' as <-. reflexivity.
    + intros field' r [= <- <-] Hcontra. congruence.
    + intros v [Hne | Hr']; unfold SetInt;
        destruct (Type_ fieldType); try reflexivity; [congruence | rewrite int32_fits; auto].
Qed.

(** X2. A scalar [uint], [uint32] or [uint64] field (lines 95 to 100)
    is set exactly when the raw value is a run of decimal digits whose
    value is below [2^64], and then it holds that value converted to its
    type.  In every other case the field is left alone and the cause is a
    [NumError] that names [ParseUint] and the raw value; a raw value that
    starts with a sign, ['-'] or ['+'], is a syntax error. *)
Theorem unsigned_field_exact (L : Libs) field fieldType val :
  Type_ fieldType = TUint \/ Type_ fieldType = TUint32 \/ Type_ fieldType = TUint64 ->
  (forall field',
     setValueFromEnv L field fieldType val = (field', Returns None)
     <-> exists v, unsignedDecimal val = Some v /\ v < 2 ^ 64
                   /\ field' = SetUint (Type_ fieldType) v)
  /\ (forall field' r,
        setValueFromEnv L field fieldType val = (field', r) -> r <> Returns None ->
        field' = field
        /\ exists kind, r = Returns (Some (NumError (strconv.mkNumError "ParseUint" val kind))))
  /\ (forall c rest, val = String c rest -> is_byte c 45 = true \/ is_byte c 43 = true ->
        setValueFromEnv L field fieldType val
        = (field, Returns (Some (NumError (strconv.syntaxError "ParseUint" val))))).
Proof.
  intros Hty.
  assert (Hset : setValueFromEnv L field fieldType val
                 = match strconv.ParseUint val 64 with
                   | (_, Some err) => (field, Returns (Some (NumError err)))
                   | (i, None) => (SetUint (Type_ fieldType) i, Returns None)
                   end).
  { unfold setValueFromEnv. destruct Hty as [-> | [-> | ->]]; reflexivity. }
  rewrite Hset. split; [| split].
  - intros field'. destruct (strconv.ParseUint val 64) as [i [e |]] eqn:Hparse.
    + split; [discriminate |]. intros (v & Hv & Hr & _).
      assert (Hp : strconv.ParseUint val 64 = (v, None)) by (apply ParseUint_exact; auto; lia).
      rewrite Hp in Hparse. discriminate Hparse.
    + apply ParseUint_exact in Hparse as [Hv Hr]; [| lia]. split.
      * intros [= <-]. eauto.
      * intros (v & Hv' & _ & ->). rewrite Hv in Hv'. injection Hv' as <-. reflexivity.
  - intros field' r. destruct (strconv.ParseUint val 64) as [i [e |]] eqn:Hparse.
    + intros [= <- <-] _. split; [reflexivity |].
      apply ParseUint_error_names in Hparse as [Hf Hn]. exists (strconv.Err_ e).
      destruct e as [f n k]. simpl in *. subst. reflexivity.
    + intros [= <- <-] Hcontra. congruence.
  - intros c rest -> Hsign. unfold strconv.ParseUint. simpl String.eqb. cbv iota.
    simpl orb. cbv iota. simpl strconv.parseUintLoop.
    assert (Hc : byte_val c = 45 \/ byte_val c = 43)
      by (unfold is_byte in Hsign; rewrite !Z.eqb_eq in Hsign; exact Hsign).
    unfold is_digit, lower. destruct Hc as [-> | ->]; reflexivity.
Qed.

Lemma signed_field_exact_witness :
  setValueFromEnv closedLibs (VInt 0) (envField "Offset" TInt32 "OFFSET") "-42"
  = (VInt (-42), Returns None)
  /\ setValueFromEnv closedLibs (VInt 3) (envField "Port" TInt "PORT") "80 "
     = (VInt 3, Returns (Some (NumError (strconv.syntaxError "Atoi" "80 ")))).
Proof.
  pose proof (signed_field_exact closedLibs (VInt 0) (envField "Offset" TInt32 "OFFSET") "-42"
                (or_intror (or_introl eq_refl))) as (Hset & _ & Hfit).
  pose proof (signed_field_exact closedLibs (VInt 3) (envField "Port" TInt "PORT") "80 "
                (or_introl eq_refl)) as (_ & Hfail & _).
  split.
  - apply Hset. exists (-42). split; [reflexivity |]. split; [lia | reflexivity].
  - destruct (setValueFromEnv closedLibs (VInt 3) (envField "Port" TInt "PORT") "80 ")
      as [field' r] eqn:Hrun.
    assert (Hr : r = Returns (Some (NumError (strconv.syntaxError "Atoi" "80 "))))
      by (vm_compute in Hrun; injection Hrun as _ <-; reflexivity).
    destruct (Hfail field' r eq_refl) as [-> _]; [rewrite Hr; discriminate |].
    rewrite Hr. reflexivity.
Defined.

Lemma unsigned_field_exact_witness :
  setValueFromEnv closedLibs (VUint 0) (envField "Retries" TUint "RETRIES") "007"
  = (VUint 7, Returns None)
  /\ setValueFromEnv closedLibs (VUint 3) (envField "UintVal" TUint "UINT_VAL") "-3"
     = (VUint 3, Returns (Some (NumError (strconv.syntaxError "ParseUint" "-3")))).
Proof.
  pose proof (unsigned_field_exact closedLibs (VUint 0) (envField "Retries" TUint "RETRIES") "007"
                (or_introl eq_refl)) as (Hset & _ & _).
  pose proof (unsigned_field_exact closedLibs (VUint 3) (envField "UintVal" TUint "UINT_VAL") "-3"
                (or_introl eq_refl)) as (_ & _ & Hsign).
  split.
  - apply Hset. exists 7. split; [reflexivity |]. split; [lia | reflexivity].
  - apply (Hsign "-"%char "3"); [reflexivity | left; reflexivity].
Defined.

(** *** Sequences, exactly *)

Lemma Split_nonempty s sep : strings.Split s sep <> [].
Proof.
  destruct s as [| c s]; simpl; [discriminate |].
  destruct (Ascii.eqb c sep); [discriminate |].
  destruct (strings.Split s sep); discriminate.
Qed.

Lemma concat_cons_char sep c piece pieces :
  String.concat sep (String c piece :: pieces) = String c (String.concat sep (piece :: pieces)).
Proof. destruct pieces; reflexivity. Qed.

(** Joining the pieces of a split with the separator gives the string
    back. *)
Lemma concat_Split s sep :
  String.concat (String sep EmptyString) (strings.Split s sep) = s.
Proof.
  induction s as [| c s IH]; [reflexivity |].
  simpl strings.Split. destruct (Ascii.eqb_spec c sep) as [-> | Hc].
  - pose proof (Split_nonempty s sep) as Hne.
    destruct (strings.Split s sep) as [| piece pieces]; [congruence |].
    change (String.concat (String sep EmptyString) (EmptyString :: piece :: pieces))
      with (String sep (String.concat (String sep EmptyString) (piece :: pieces))).
    rewrite IH. reflexivity.
  - pose proof (Split_nonempty s sep) as Hne.
    destruct (strings.Split s sep) as [| piece pieces]; [congruence |].
    rewrite concat_cons_char, IH. reflexivity.
Qed.

Lemma Split_pieces_clean s sep :
  Forall (fun piece => strings.ContainsByte piece sep = false) (strings.Split s sep).
Proof.
  induction s as [| c s IH]; simpl; [repeat constructor |].
  destruct (Ascii.eqb_spec c sep) as [-> | Hc]; [constructor; [reflexivity | exact IH] |].
  destruct (strings.Split s sep) as [| piece pieces]; [repeat constructor |].
  - simpl. apply orb_false_iff. split; [apply Ascii.eqb_neq, Hc | reflexivity].
  - inversion IH as [| ? ? Hp Hps]; subst. constructor; [| exact Hps].
    simpl. rewrite Hp. apply orb_false_iff. split; [apply Ascii.eqb_neq, Hc | reflexivity].
Qed.

Lemma Split_clean_prefix piece sep rest :
  strings.ContainsByte piece sep = false ->
  strings.Split (piece +:+ String sep rest) sep = piece :: strings.Split rest sep.
Proof.
  induction piece as [| c piece IH]; intros Hclean.
  - simpl. rewrite Ascii.eqb_refl. reflexivity.
  - simpl in Hclean. apply orb_false_iff in Hclean as [Hc Hp].
    change (String c piece +:+ String sep rest) with (String c (piece +:+ String sep rest)).
    simpl strings.Split. rewrite Hc, (IH Hp). reflexivity.
Qed.

Lemma Split_clean piece sep :
  strings.ContainsByte piece sep = false -> strings.Split piece sep = [piece].
Proof.
  induction piece as [| c piece IH]; intros Hclean; [reflexivity |].
  simpl in Hclean. apply orb_false_iff in Hclean as [Hc Hp].
  simpl. rewrite Hc, (IH Hp). reflexivity.
Qed.

(** Splitting what joining gave returns the pieces, when there is one
    piece at least and none holds the separator. *)
Lemma Split_concat sep (pieces : list string) :
  pieces <> [] ->
  Forall (fun piece => strings.ContainsByte piece sep = false) pieces ->
  strings.Split (String.concat (String sep EmptyString) pieces) sep = pieces.
Proof.
  induction pieces as [| piece pieces IH]; intros Hne Hclean; [congruence |].
  inversion Hclean as [| ? ? Hp Hps]; subst.
  destruct pieces as [| piece' pieces].
  - simpl. apply Split_clean, Hp.
  - change (String.concat (String sep EmptyString) (piece :: piece' :: pieces))
      with (piece +:+ String sep (String.concat (String sep EmptyString) (piece' :: pieces))).
    rewrite (Split_clean_prefix piece sep _ Hp), IH; [reflexivity | discriminate | exact Hps].
Qed.

(** X3. A [[]string] field (lines 119 and 120) always converts.  It
    receives one element at least, none holding a [','], and the elements
    joined by [','] are the raw value; conversely a raw value made by
    joining comma-free elements gives back those elements.  The empty raw
    value gives one empty element. *)
Theorem string_slice_round_trip (L : Libs) field fieldType val :
  Type_ fieldType = TStrings ->
  (exists elems,
     setValueFromEnv L field fieldType val = (VStrings elems, Returns None)
     /\ elems <> []
     /\ Forall (fun elem => strings.ContainsByte elem "," = false) elems
     /\ String.concat "," elems = val)
  /\ (forall elems,
        elems <> [] ->
        Forall (fun elem => strings.ContainsByte elem "," = false) elems ->
        setValueFromEnv L field fieldType (String.concat "," elems)
        = (VStrings elems, Returns None)).
Proof.
  intros Hty. unfold setValueFromEnv. rewrite Hty. split.
  - exists (strings.Split val ","). split; [reflexivity |].
    split; [apply Split_nonempty |]. split; [apply Split_pieces_clean | apply concat_Split].
  - intros elems Hne Hclean. rewrite (Split_concat "," elems Hne Hclean). reflexivity.
Qed.

Lemma string_slice_round_trip_witness :
  setValueFromEnv closedLibs (VStrings []) (envField "Hosts" TStrings "HOSTS")
    (String.concat "," ["example.com"; ""; " api.example.com"])
  = (VStrings ["example.com"; ""; " api.example.com"], Returns None).
Proof.
  apply (string_slice_round_trip closedLibs (VStrings []) (envField "Hosts" TStrings "HOSTS")
           EmptyString eq_refl).
  - discriminate.
  - repeat constructor.
Defined.

Lemma convertEach_map_inl rule (g : string -> string) (l : list string) : forall ns,
  convertEach rule (map g l) = inl ns
  <-> Forall2 (fun e n => rule (g e) = (n, None)) l ns.
Proof.
  induction l as [| e l IH]; intros ns; simpl.
  - split; [intros [= <-]; constructor | intros H; inversion H; reflexivity].
  - destruct (rule (g e)) as [n [c |]] eqn:Hr.
    + split; [discriminate | intros H; inversion H; subst; congruence].
    + destruct (convertEach rule (map g l)) as [ms | c] eqn:Hc.
      * split.
        -- intros [= <-]. constructor; [exact Hr | apply IH; reflexivity].
        -- intros H. inversion H as [| ? n' ? ns' Hn Hns]; subst.
           apply IH in Hns. injection Hns as <-. congruence.
      * split; [discriminate |].
        intros H. inversion H as [| ? n' ? ns' Hn Hns]; subst.
        apply IH in Hns. discriminate Hns.
Qed.

Lemma convertEach_map_inr rule (g : string -> string) (l : list string) :
  Exists (fun e => forall n, rule (g e) <> (n, None)) l ->
  exists cause, convertEach rule (map g l) = inr cause.
Proof.
  intros Hex. destruct (convertEach rule (map g l)) as [ns | cause] eqn:Hc; [| eauto].
  exfalso. apply convertEach_map_inl in Hc.
  induction Hc as [| e n l ns Hr _ IH]; inversion Hex; subst; [eapply H0, Hr | auto].
Qed.

Lemma setSlice_exact field (mk : list Z -> value) parse cast (f : string -> option Z) val :
  (forall ns ms, mk ns = mk ms -> ns = ms) ->
  (forall piece v, elemRule parse cast piece = (v, None) <-> f piece = Some v) ->
  (forall vs,
     setSlice field mk parse cast val = (mk vs, Returns None)
     <-> Forall2 (fun piece v => f (strings.TrimSpace piece) = Some v) (strings.Split val ",") vs)
  /\ (Exists (fun piece => f (strings.TrimSpace piece) = None) (strings.Split val ",") ->
      exists err, setSlice field mk parse cast val = (field, Returns (Some err))).
Proof.
  intros Hinj Hrule. rewrite setSlice_convertEach. split.
  - intros vs.
    destruct (convertEach _ _) as [ns | cause] eqn:Hc.
    + apply convertEach_map_inl in Hc. split.
      * intros [= Hmk]. apply Hinj in Hmk. subst ns.
        eapply Forall2_impl; [exact Hc |]. intros piece v Hr. apply Hrule, Hr.
      * intros Hall. f_equal. f_equal.
        revert Hc. revert ns. induction Hall as [| piece v l vs' Hv _ IH]; intros ns Hc.
        -- inversion Hc. reflexivity.
        -- inversion Hc as [| ? n ? ns' Hn Hns]; subst. apply Hrule in Hn.
           rewrite Hv in Hn. injection Hn as <-. f_equal. apply IH, Hns.
    + split; [discriminate |]. intros Hall. exfalso.
      assert (Hok : convertEach (elemRule parse cast)
                      (map strings.TrimSpace (strings.Split val ",")) = inl vs).
      { apply convertEach_map_inl. eapply Forall2_impl; [exact Hall |].
        intros piece v Hv. apply Hrule, Hv. }
      congruence.
  - intros Hex.
    destruct (convertEach_map_inr (elemRule parse cast) strings.TrimSpace (strings.Split val ","))
      as [cause Hc].
    + eapply Exists_impl; [exact Hex |]. intros piece Hnone n Hr.
      apply Hrule in Hr. congruence.
    + rewrite Hc. eauto.
Qed.

Lemma signed64_rule piece v :
  (fun s => numErr (strconv.Atoi s)) piece = (v, None)
  <-> match signedDecimal piece with
      | Some v' => if (- 2 ^ 63 <=? v') && (v' <? 2 ^ 63) then Some v' else None
      | None => None
      end = Some v.
Proof.
  unfold numErr. destruct (strconv.Atoi piece) as [n e] eqn:Hatoi. simpl.
  split.
  - intros [= -> He]. destruct e; [discriminate He |].
    apply Atoi_exact in Hatoi as [-> Hr].
    replace ((- 2 ^ 63 <=? v) && (v <? 2 ^ 63)) with true; [reflexivity |].
    symmetry. apply andb_true_iff. split; [apply Z.leb_le | apply Z.ltb_lt]; lia.
  - destruct (signedDecimal piece) as [v' |] eqn:Hs; [| discriminate].
    destruct ((- 2 ^ 63 <=? v') && (v' <? 2 ^ 63)) eqn:Hr; [| discriminate].
    intros [= ->]. apply andb_true_iff in Hr as [Hlo Hhi].
    apply Z.leb_le in Hlo. apply Z.ltb_lt in Hhi.
    assert (Hok : strconv.Atoi piece = (v, None)) by (apply Atoi_exact; auto).
    rewrite Hok in Hatoi. injection Hatoi as <- <-. reflexivity.
Qed.

Lemma signed64_rule_ParseInt piece v :
  (fun s => numErr (strconv.ParseInt s 64)) piece = (v, None)
  <-> match signedDecimal piece with
      | Some v' => if (- 2 ^ 63 <=? v') && (v' <? 2 ^ 63) then Some v' else None
      | None => None
      end = Some v.
Proof.
  unfold numErr. destruct (strconv.ParseInt piece 64) as [n e] eqn:Hparse. simpl.
  split.
  - intros [= -> He]. destruct e; [discriminate He |].
    apply ParseInt_exact in Hparse as [-> Hr]; [| auto].
    replace ((- 2 ^ 63 <=? v) && (v <? 2 ^ 63)) with true; [reflexivity |].
    symmetry. apply andb_true_iff. split; [apply Z.leb_le | apply Z.ltb_lt]; lia.
  - destruct (signedDecimal piece) as [v' |] eqn:Hs; [| discriminate].
    destruct ((- 2 ^ 63 <=? v') && (v' <? 2 ^ 63)) eqn:Hr; [| discriminate].
    intros [= ->]. apply andb_true_iff in Hr as [Hlo Hhi].
    apply Z.leb_le in Hlo. apply Z.ltb_lt in Hhi.
    assert (Hok : strconv.ParseInt piece 64 = (v, None)) by (apply ParseInt_exact; auto).
    rewrite Hok in Hparse. injection Hparse as <- <-. reflexivity.
Qed.

Lemma unsigned_rule bits piece v :
  bits = 32 \/ bits = 64 ->
  (fun s => numErr (strconv.ParseUint s bits)) piece = (v, None)
  <-> match unsignedDecimal piece with
      | Some v' => if v' <? 2 ^ bits then Some v' else None
      | None => None
      end = Some v.
Proof.
  intros Hbits. assert (Hb : 0 <= bits <= 64) by lia.
  assert (Hbo : bitsOf bits = bits) by (destruct Hbits as [-> | ->]; reflexivity).
  unfold numErr. destruct (strconv.ParseUint piece bits) as [n e] eqn:Hparse. simpl.
  split.
  - intros [= -> He]. destruct e; [discriminate He |].
    apply ParseUint_exact in Hparse as [-> Hr]; [| exact Hb]. rewrite Hbo in Hr.
    replace (v <? 2 ^ bits) with true by (symmetry; apply Z.ltb_lt; exact Hr). reflexivity.
  - destruct (unsignedDecimal piece) as [v' |] eqn:Hs; [| discriminate].
    destruct (Z.ltb_spec v' (2 ^ bits)) as [Hr |]; [| discriminate].
    intros [= ->].
    assert (Hok : strconv.ParseUint piece bits = (v, None))
      by (apply ParseUint_exact; [exact Hb | rewrite Hbo; auto]).
    rewrite Hok in Hparse. injection Hparse as <- <-. reflexivity.
Qed.

Lemma elemRule_value parse cast (f : string -> option Z) piece v :
  (forall n, parse piece = (n, None) <-> f piece = Some n) ->
  elemRule parse cast piece = (v, None) <-> cast <$> f piece = Some v.
Proof.
  intros Hparse. unfold elemRule. destruct (parse piece) as [n e] eqn:Hp. split.
  - intros [= <- ->]. pose proof (proj1 (Hparse n) eq_refl) as Hn.
    rewrite Hn. reflexivity.
  - destruct (f piece) as [m |] eqn:Hf; [| discriminate].
    intros [= <-]. pose proof (proj2 (Hparse m) eq_refl) as Hm.
    injection Hm as -> ->. reflexivity.
Qed.

Lemma fmap_id_option (o : option Z) : id <$> o = o.
Proof. destruct o; reflexivity. Qed.

Lemma elementValue_empty t : elementValue t EmptyString = None.
Proof. destruct t; reflexivity. Qed.

Lemma uint32_fmap_unsigned piece :
  uint32 <$> elementValue TUint32s piece = elementValue TUint32s piece.
Proof.
  unfold elementValue. destruct (unsignedDecimal piece) as [v |] eqn:Hv; [| reflexivity].
  destruct (Z.ltb_spec v (2 ^ 32)) as [Hlt |]; [| reflexivity].
  apply unsignedDecimal_digits in Hv as [_ H0]. simpl. unfold uint32.
  rewrite Z.mod_small by lia. reflexivity.
Qed.

(** The element rule of each integer slice type gives a piece the
    element [elementValue] assigns to it, and fails on the others. *)
Lemma integer_rule_value (L : Libs) t rule mk piece v :
  integerSlice t = true -> sliceRule L t = Some (rule, mk) ->
  rule piece = (v, None) <-> elementValue t piece = Some v.
Proof.
  intros Hint Hrule. destruct t; try discriminate Hint; injection Hrule as <- <-.
  - rewrite (elemRule_value _ id (elementValue TInts) piece v), fmap_id_option; [reflexivity |].
    intros n. apply signed64_rule.
  - rewrite (elemRule_value _ int32 (elementValue TInts) piece v); [reflexivity |].
    intros n. apply signed64_rule.
  - rewrite (elemRule_value _ id (elementValue TInt64s) piece v), fmap_id_option; [reflexivity |].
    intros n. apply signed64_rule_ParseInt.
  - rewrite (elemRule_value _ id (elementValue TUints) piece v), fmap_id_option; [reflexivity |].
    intros n. apply (unsigned_rule 64); auto.
  - rewrite (elemRule_value _ uint32 (elementValue TUint32s) piece v), uint32_fmap_unsigned;
      [reflexivity |].
    intros n. apply (unsigned_rule 32); auto.
  - rewrite (elemRule_value _ id (elementValue TUint64s) piece v), fmap_id_option; [reflexivity |].
    intros n. apply (unsigned_rule 64); auto.
Qed.

(** X4. An integer slice field (lines 122 to 156 and 182 to 216) is set
    exactly when every piece between the commas, once trimmed, is a
    decimal that fits the width it is parsed at: 64 bits, and 32 bits for
    [[]uint32].  It then holds the values of the pieces in order, an
    element of [[]int32] reduced to its low 32 bits.  One piece without
    such a value, an empty or blank piece in particular, fails the whole
    conversion and leaves the field alone; so the empty raw value gives an
    error and not an empty slice. *)
Theorem integer_slice_exact (L : Libs) field fieldType val :
  integerSlice (Type_ fieldType) = true ->
  (forall vs,
     setValueFromEnv L field fieldType val
     = (integerSliceOf (Type_ fieldType) vs, Returns None)
     <-> Forall2 (fun piece v => elementValue (Type_ fieldType) (strings.TrimSpace piece) = Some v)
           (strings.Split val ",") vs)
  /\ (Exists (fun piece => elementValue (Type_ fieldType) (strings.TrimSpace piece) = None)
        (strings.Split val ",") ->
      exists err, setValueFromEnv L field fieldType val = (field, Returns (Some err)))
  /\ (Exists (fun piece => strings.TrimSpace piece = EmptyString) (strings.Split val ",") ->
      exists err, setValueFromEnv L field fieldType val = (field, Returns (Some err))).
Proof.
  intros Hint.
  assert (Hrule : exists rule mk parse cast,
            sliceRule L (Type_ fieldType) = Some (rule, mk)
            /\ rule = elemRule parse cast
            /\ mk = integerSliceOf (Type_ fieldType)
            /\ setValueFromEnv L field fieldType val = setSlice field mk parse cast val).
  { unfold setValueFromEnv, sliceRule, integerSliceOf.
    destruct (Type_ fieldType); try discriminate Hint;
      do 4 eexists; repeat split; reflexivity. }
  destruct Hrule as (rule & mk & parse & cast & Hrule & -> & -> & ->).
  destruct (setSlice_exact field (integerSliceOf (Type_ fieldType)) parse cast
              (elementValue (Type_ fieldType)) val) as [Hall Hsome].
  - intros ns ms. unfold integerSliceOf. destruct (Type_ fieldType); congruence.
  - intros piece v. apply (integer_rule_value L _ _ _ piece v Hint Hrule).
  - split; [exact Hall | split; [exact Hsome |]].
    intros Hblank. apply Hsome. eapply Exists_impl; [exact Hblank |].
    intros piece ->. apply elementValue_empty.
Qed.

Lemma integer_slice_exact_witness :
  setValueFromEnv closedLibs (VUints []) (envField "Ids" TUint32s "IDS") " 1,2 ,4294967295"
  = (VUints [1; 2; 4294967295], Returns None)
  /\ exists err,
      setValueFromEnv closedLibs (VInts [7]) (envField "Ports" TInts "PORTS") "1,2,"
      = (VInts [7], Returns (Some err)).
Proof.
  split.
  - apply (proj1 (integer_slice_exact closedLibs (VUints []) (envField "Ids" TUint32s "IDS")
                    " 1,2 ,4294967295" eq_refl) [1; 2; 4294967295]).
    repeat constructor.
  - apply (integer_slice_exact closedLibs (VInts [7]) (envField "Ports" TInts "PORTS")
             "1,2," eq_refl).
    right. right. left. reflexivity.
Defined.

(** *** The walk as a whole *)

(** Induction over a value and, for a struct, over the values of its
    fields. *)
Lemma value_tree_ind (P : value -> Prop) :
  (forall v, (forall fields, v = VStruct fields -> Forall (fun f => P f.2) fields) -> P v) ->
  forall v, P v.
Proof.
  intros Hstep. fix IH 1. intros v. apply Hstep.
  destruct v; try (intros fs Hfs; discriminate Hfs).
  intros fs [= <-].
  induction fields as [| [fieldType field] fields IHfields]; constructor.
  - apply IH.
  - exact IHfields.
Qed.

Lemma carryOn_keys fieldType field' keys (w : walked) :
  (carryOn fieldType field' keys w).2 = keys ++ w.2.
Proof. destruct w as [[fl rest'] keys']. reflexivity. Qed.

Section Frame.

Context (L : Libs) (E E' : gmap string string).

Lemma parseFields_frame fields :
  Forall (fun f => forall t,
            (forall k, In k (ParseElem L E t f.2).2 -> E !! k = E' !! k) ->
            ParseElem L E' t f.2 = ParseElem L E t f.2) fields ->
  forall errs,
    (forall k, In k (parseFields L E (ParseElem L E) fields errs).2 -> E !! k = E' !! k) ->
    parseFields L E' (ParseElem L E') fields errs = parseFields L E (ParseElem L E) fields errs.
Proof.
  induction 1 as [| [fieldType field] fields Hf Hfs IH]; intros errs Hkeys; [reflexivity |].
  simpl in Hf.
  destruct (CanSet fieldType) eqn:Hset.
  2:{ rewrite (parseFields_unsettable L E) in Hkeys |- * by exact Hset.
      rewrite (parseFields_unsettable L E') by exact Hset.
      rewrite IH; [reflexivity |].
      intros k Hk. apply Hkeys. rewrite carryOn_keys. exact Hk. }
  destruct (nested fieldType) eqn:Hnest.
  { rewrite (parseFields_nested L E) in Hkeys |- * by assumption.
    rewrite (parseFields_nested L E') by assumption.
    assert (Hsame : ParseElem L E' (Type_ fieldType) field = ParseElem L E (Type_ fieldType) field).
    { apply Hf. intros k Hk. apply Hkeys.
      destruct (ParseElem L E (Type_ fieldType) field) as [[r field'] keys].
      destruct r as [[e |] |]; simpl in Hk |- *; [exact Hk | | exact Hk].
      rewrite carryOn_keys. apply in_or_app. left. exact Hk. }
    rewrite Hsame.
    destruct (ParseElem L E (Type_ fieldType) field) as [[r field'] keys].
    destruct r as [[e |] |]; [reflexivity | | reflexivity].
    rewrite IH; [reflexivity |].
    intros k Hk. apply Hkeys. rewrite carryOn_keys. apply in_or_app. right. exact Hk. }
  destruct (skipKey (Tag_env fieldType)) eqn:Hskip.
  { rewrite (parseFields_skipped L E) in Hkeys |- * by assumption.
    rewrite (parseFields_skipped L E') by assumption.
    rewrite IH; [reflexivity |].
    intros k Hk. apply Hkeys. rewrite carryOn_keys. exact Hk. }
  destruct (E !! Tag_env fieldType) as [val |] eqn:Hlook.
  - rewrite (parseFields_leaf L E _ _ _ _ _ val) in Hkeys |- * by assumption.
    assert (Hlook' : E' !! Tag_env fieldType = Some val).
    { rewrite <- Hlook. symmetry. apply Hkeys.
      destruct (setValueFromEnv L field fieldType val) as [field' [[err |] |]];
        try rewrite carryOn_keys; left; reflexivity. }
    rewrite (parseFields_leaf L E' _ _ _ _ _ val) by assumption.
    destruct (setValueFromEnv L field fieldType val) as [field' [[err |] |]];
      [| | reflexivity].
    + rewrite IH; [reflexivity |].
      intros k Hk. apply Hkeys. rewrite carryOn_keys. right. exact Hk.
    + rewrite IH; [reflexivity |].
      intros k Hk. apply Hkeys. rewrite carryOn_keys. right. exact Hk.
  - rewrite (parseFields_missing L E) in Hkeys |- * by assumption.
    assert (Hlook' : E' !! Tag_env fieldType = None).
    { rewrite <- Hlook. symmetry. apply Hkeys. left. reflexivity. }
    rewrite (parseFields_missing L E') by assumption. reflexivity.
Qed.

Lemma ParseElem_frame v : forall t,
  (forall k, In k (ParseElem L E t v).2 -> E !! k = E' !! k) ->
  ParseElem L E' t v = ParseElem L E t v.
Proof.
  induction v as [v IH] using value_tree_ind. intros t Hkeys.
  rewrite !ParseElem_unfold in *.
  destruct (Kind_of t); try reflexivity.
  destruct v; try reflexivity.
  specialize (IH fields eq_refl).
  rewrite (parseFields_frame fields IH []); [reflexivity |].
  intros k Hk. apply Hkeys.
  destruct (parseFields L E (ParseElem L E) fields []) as [[fl fields'] keys]. exact Hk.
Qed.

(** X5. The result of [Parse] is decided by the variables it looks
    up: in an environment that agrees with the first one on every key the
    call looked up, whatever else it holds, [Parse] returns the same
    error, leaves the same values behind and looks up the same keys. *)
Theorem Parse_depends_on_looked_up_keys tg :
  (forall k, In k (Parse L E tg).2 -> E !! k = E' !! k) ->
  Parse L E' tg = Parse L E tg.
Proof.
  destruct tg as [t v | t | t v]; try reflexivity.
  unfold Parse. intros Hkeys.
  rewrite (ParseElem_frame v t); [reflexivity |].
  intros k Hk. apply Hkeys.
  destruct (ParseElem L E t v) as [[r v'] keys]. exact Hk.
Qed.

End Frame.

Lemma Parse_depends_on_looked_up_keys_witness :
  let tg := PtrTo TStruct (VStruct [(envField "Port" TInt "PORT", VInt 0);
                                    (envField "Name" TString "-", VString "")]) in
  Parse closedLibs (list_to_map [("PORT", "8080"); ("HOME", "/root"); ("-", "x")]) tg
  = Parse closedLibs {["PORT" := "8080"]} tg.
Proof.
  intros tg.
  apply (Parse_depends_on_looked_up_keys closedLibs {["PORT" := "8080"]}
           (list_to_map [("PORT", "8080"); ("HOME", "/root"); ("-", "x")]) tg).
  intros k Hk.
  assert (Hkey : k = "PORT").
  { vm_compute in Hk. destruct Hk as [<- | []]. reflexivity. }
  subst k. vm_compute. reflexivity.
Defined.

Section Outcome.

Context (L : Libs) (E : gmap string string).

Lemma parseFields_Through_passes fields : forall errs errs' fields' keys,
  parseFields L E (ParseElem L E) fields errs = (Through errs', fields', keys) ->
  forallb (passes L E) fields = true.
Proof.
  induction fields as [| [fieldType field] fields IH]; intros errs errs' fields' keys Hwalk;
    [reflexivity |].
  simpl forallb. unfold passes at 1.
  destruct (CanSet fieldType) eqn:Hset; simpl negb; cbv iota.
  2:{ rewrite parseFields_unsettable in Hwalk by exact Hset.
      destruct (parseFields L E _ fields errs) as [[fl rest'] keys'] eqn:Hrest.
      injection Hwalk as -> _ _. eapply IH, Hrest. }
  destruct (nested fieldType) eqn:Hnest.
  { rewrite parseFields_nested in Hwalk by assumption.
    destruct (ParseElem L E (Type_ fieldType) field) as [[r field'] keys0].
    destruct r as [[e |] |]; try discriminate Hwalk.
    destruct (parseFields L E _ fields errs) as [[fl rest'] keys'] eqn:Hrest.
    injection Hwalk as -> _ _. simpl. eapply IH, Hrest. }
  destruct (skipKey (Tag_env fieldType)) eqn:Hskip.
  { rewrite parseFields_skipped in Hwalk by assumption.
    destruct (parseFields L E _ fields errs) as [[fl rest'] keys'] eqn:Hrest.
    injection Hwalk as -> _ _. eapply IH, Hrest. }
  destruct (E !! Tag_env fieldType) as [val |] eqn:Hlook.
  2:{ rewrite parseFields_missing in Hwalk by assumption. discriminate Hwalk. }
  rewrite (parseFields_leaf L E _ _ _ _ _ val) in Hwalk by assumption.
  destruct (setValueFromEnv L field fieldType val) as [field' [[err |] |]];
    try discriminate Hwalk; simpl.
  - destruct (parseFields L E _ fields _) as [[fl rest'] keys'] eqn:Hrest.
    injection Hwalk as -> _ _. eapply IH, Hrest.
  - destruct (parseFields L E _ fields _) as [[fl rest'] keys'] eqn:Hrest.
    injection Hwalk as -> _ _. eapply IH, Hrest.
Qed.

Lemma fieldSucceeds_passes f :
  fieldSucceeds L E f <-> passes L E f = true /\ failure L E f = None.
Proof.
  destruct f as [fieldType field]. unfold fieldSucceeds, passes, failure, leaf.
  simpl fst. simpl snd.
  destruct (CanSet fieldType) eqn:Hset; simpl negb; simpl andb; cbv iota.
  2:{ split; [intros _; split; reflexivity | intros _ Hc; discriminate Hc]. }
  destruct (nested fieldType) eqn:Hnest; simpl negb; simpl andb; cbv iota.
  { destruct ((ParseElem L E (Type_ fieldType) field).1.1) as [[e |] |] eqn:Hr.
    - split; [| intros [Hc _]; discriminate Hc].
      intros H. destruct (H eq_refl) as [H1 _]. discriminate (H1 eq_refl).
    - split; [intros _; split; reflexivity |].
      intros _ _. split; [reflexivity | intros Hc; discriminate Hc].
    - split; [| intros [Hc _]; discriminate Hc].
      intros H. destruct (H eq_refl) as [H1 _]. discriminate (H1 eq_refl). }
  destruct (skipKey (Tag_env fieldType)) eqn:Hskip; simpl negb; cbv iota.
  { split; [intros _; split; reflexivity |].
    intros _ _; split; intros Hc; discriminate Hc. }
  destruct (E !! Tag_env fieldType) as [val |] eqn:Hlook.
  - destruct ((setValueFromEnv L field fieldType val).2) as [[err |] |] eqn:Hr.
    + split; [| intros [_ Hc]; discriminate Hc].
      intros H. destruct (H eq_refl) as [_ H2]. destruct (H2 eq_refl) as (v & Hv & Hr').
      injection Hv as <-. rewrite Hr in Hr'. discriminate Hr'.
    + split; [intros _; split; reflexivity |].
      intros _ _. split; [intros Hc; discriminate Hc |].
      intros _. exists val. split; [reflexivity | exact Hr].
    + split; [| intros [Hc _]; discriminate Hc].
      intros H. destruct (H eq_refl) as [_ H2]. destruct (H2 eq_refl) as (v & Hv & Hr').
      injection Hv as <-. rewrite Hr in Hr'. discriminate Hr'.
  - split; [| intros [Hc _]; discriminate Hc].
    intros H. destruct (H eq_refl) as [_ H2]. destruct (H2 eq_refl) as (v & Hv & _).
    discriminate Hv.
Qed.

Lemma Forall_fieldSucceeds fields :
  Forall (fieldSucceeds L E) fields
  <-> forallb (passes L E) fields = true /\ failures L E fields = [].
Proof.
  induction fields as [| f fields IH].
  - split; [intros _; split; reflexivity | constructor].
  - unfold failures in *. simpl forallb. simpl omap. rewrite andb_true_iff. split.
    + intros H. inversion H as [| ? ? Hf Hfs]; subst.
      apply fieldSucceeds_passes in Hf as [Hp Hn]. apply IH in Hfs as [Hps Hns].
      rewrite Hn. auto.
    + intros [[Hp Hps] Hn].
      destruct (failure L E f) eqn:Hf; [discriminate Hn |].
      constructor; [apply fieldSucceeds_passes; auto | apply IH; auto].
Qed.

(** X6. [Parse] on a pointer to a struct returns nil exactly when the
    turn of every field that can be set goes well: each nested struct is
    parsed without an error, and each leaf finds its key in the
    environment and converts.  The struct then holds what those turns left
    in it. *)
Theorem Parse_succeeds_iff fields :
  ((Parse L E (PtrTo TStruct (VStruct fields))).1.1 = Returns None
   <-> Forall (fieldSucceeds L E) fields)
  /\ (Forall (fieldSucceeds L E) fields ->
      Parse L E (PtrTo TStruct (VStruct fields))
      = (Returns None, PtrTo TStruct (VStruct (map (after L E) fields)),
         concat (map (lookups L E) fields))).
Proof.
  assert (Hdone : Forall (fieldSucceeds L E) fields ->
            Parse L E (PtrTo TStruct (VStruct fields))
            = (Returns None, PtrTo TStruct (VStruct (map (after L E) fields)),
               concat (map (lookups L E) fields))).
  { intros Hall. apply Forall_fieldSucceeds in Hall as [Hpass Hnone].
    rewrite Parse_struct, (parseFields_through L E fields [] Hpass), Hnone. reflexivity. }
  split; [| exact Hdone]. split.
  - rewrite Parse_struct.
    destruct (parseFields L E (ParseElem L E) fields []) as [[fl fields'] keys] eqn:Hwalk.
    simpl. destruct fl as [errs | err |]; simpl; try discriminate.
    intros Hreport.
    pose proof (parseFields_Through_passes _ _ _ _ _ Hwalk) as Hpass.
    rewrite (parseFields_through L E fields [] Hpass) in Hwalk. injection Hwalk as <- _ _.
    apply Forall_fieldSucceeds. split; [exact Hpass |].
    destruct (failures L E fields); [reflexivity | discriminate Hreport].
  - intros Hall. rewrite (Hdone Hall). reflexivity.
Qed.

Lemma parseFields_errors fields :
  Forall (fun f => forall t e v' keys,
            ParseElem L E t f.2 = (Returns (Some e), v', keys) -> parseError L E e) fields ->
  forall errs fl fields' keys,
    parseFields L E (ParseElem L E) fields errs = (fl, fields', keys) ->
    match fl with
    | Left e => parseError L E e
    | Through errs' => exists failed, errs' = errs ++ map (fun f => wrapKey L f.1 f.2) failed
    | Panicked => True
    end.
Proof.
  induction 1 as [| [fieldType field] fields Hf Hfs IH]; intros errs fl fields' keys Hwalk.
  { injection Hwalk as <- _ _. exists []. rewrite app_nil_r. reflexivity. }
  simpl in Hf.
  destruct (CanSet fieldType) eqn:Hset.
  2:{ rewrite parseFields_unsettable in Hwalk by exact Hset.
      destruct (parseFields L E _ fields errs) as [[fl0 rest'] keys'] eqn:Hrest.
      injection Hwalk as <- _ _. eapply IH, Hrest. }
  destruct (nested fieldType) eqn:Hnest.
  { rewrite parseFields_nested in Hwalk by assumption.
    destruct (ParseElem L E (Type_ fieldType) field) as [[r field'] keys0] eqn:Hrec.
    destruct r as [[e |] |].
    - injection Hwalk as <- _ _. eapply Hf, Hrec.
    - destruct (parseFields L E _ fields errs) as [[fl0 rest'] keys'] eqn:Hrest.
      injection Hwalk as <- _ _. eapply IH, Hrest.
    - injection Hwalk as <- _ _. exact I. }
  destruct (skipKey (Tag_env fieldType)) eqn:Hskip.
  { rewrite parseFields_skipped in Hwalk by assumption.
    destruct (parseFields L E _ fields errs) as [[fl0 rest'] keys'] eqn:Hrest.
    injection Hwalk as <- _ _. eapply IH, Hrest. }
  destruct (E !! Tag_env fieldType) as [val |] eqn:Hlook.
  2:{ rewrite parseFields_missing in Hwalk by assumption. injection Hwalk as <- _ _.
      right. left. eauto. }
  rewrite (parseFields_leaf L E _ _ _ _ _ val) in Hwalk by assumption.
  destruct (setValueFromEnv L field fieldType val) as [field' [[err |] |]].
  - destruct (parseFields L E _ fields _) as [[fl0 rest'] keys'] eqn:Hrest.
    injection Hwalk as <- _ _. apply IH in Hrest.
    destruct fl0 as [errs' | e |]; try exact Hrest.
    destruct Hrest as [failed ->]. exists ((Tag_env fieldType, err) :: failed).
    rewrite <- app_assoc. reflexivity.
  - destruct (parseFields L E _ fields _) as [[fl0 rest'] keys'] eqn:Hrest.
    injection Hwalk as <- _ _. eapply IH, Hrest.
  - injection Hwalk as <- _ _. exact I.
Qed.

Lemma ParseElem_errors v : forall t e v' keys,
  ParseElem L E t v = (Returns (Some e), v', keys) -> parseError L E e.
Proof.
  induction v as [v IH] using value_tree_ind. intros t e v' keys.
  rewrite ParseElem_unfold.
  destruct (Kind_of t); try (intros [= <- _ _]; left; reflexivity).
  destruct v; try discriminate.
  specialize (IH fields eq_refl).
  destruct (parseFields L E (ParseElem L E) fields []) as [[fl fields'] keys'] eqn:Hwalk.
  pose proof (parseFields_errors fields IH _ _ _ _ Hwalk) as Hfl.
  destruct fl as [errs | err |]; simpl; try discriminate.
  - destruct Hfl as [failed ->]. simpl. unfold report.
    destruct failed as [| f failed]; [discriminate |].
    intros [= <- _ _]. right. right. exists (f :: failed). split; [discriminate |].
    unfold aggregated, buildMessage.
    change (wrapKey L f.1 f.2 :: map (fun f0 : string * error => wrapKey L f0.1 f0.2) failed)
      with (map (fun f0 : string * error => wrapKey L f0.1 f0.2) (f :: failed)).
    rewrite (buildMessage_lines L). reflexivity.
  - intros [= <- _ _]. exact Hfl.
Qed.

(** X7. Every error [Parse] returns is of one of three kinds: the
    error "target must be a pointer to a struct", the error "missing key
    environment" for a key that is not in the environment, or the banner
    followed by the lines of one conversion failure or more.  The cause of
    a failed conversion never comes back on its own. *)
Theorem Parse_error_kinds tg e tg' keys :
  Parse L E tg = (Returns (Some e), tg', keys) -> parseError L E e.
Proof.
  destruct tg as [t v | t | t v]; simpl; try (intros [= <- _ _]; left; reflexivity).
  destruct (ParseElem L E t v) as [[r v'] keys'] eqn:Hrun.
  intros [= -> _ _]. eapply ParseElem_errors, Hrun.
Qed.

(** X8. The walk reaches an embedded field that can be set and whose
    type is no struct, a named integer or a pointer to a struct for
    example: [Parse] returns "target must be a pointer to a struct".  The
    [env] tag of the field is not consulted, and the fields after it are
    not visited. *)
Theorem embedded_non_struct_fails pre fieldType field post :
  forallb (passes L E) pre = true ->
  CanSet fieldType = true -> Anonymous fieldType = true ->
  Kind_of (Type_ fieldType) <> Struct ->
  Parse L E (PtrTo TStruct (VStruct (pre ++ (fieldType, field) :: post)))
  = (Returns (Some invalidTarget),
     PtrTo TStruct (VStruct (map (after L E) pre ++ (fieldType, field) :: post)),
     concat (map (lookups L E) pre)).
Proof.
  intros Hpre Hset Hanon Hkind.
  assert (Hnest : nested fieldType = true) by (unfold nested; rewrite Hanon; reflexivity).
  assert (Hrec : ParseElem L E (Type_ fieldType) field
                 = (Returns (Some invalidTarget), field, [])).
  { rewrite ParseElem_unfold. destruct (Kind_of (Type_ fieldType)); congruence. }
  rewrite Parse_struct.
  rewrite (nested_error_returned L E pre fieldType field post [] _ _ _ Hpre Hset Hnest Hrec).
  simpl. rewrite app_nil_r. reflexivity.
Qed.

End Outcome.

Lemma Parse_succeeds_iff_witness :
  let name := mkField "name" TString "NAME" EmptyString false false in
  Parse closedLibs {["PORT" := "8080"]}
    (PtrTo TStruct (VStruct [(envField "Port" TInt "PORT", VInt 0); (name, VString "")]))
  = (Returns None,
     PtrTo TStruct (VStruct [(envField "Port" TInt "PORT", VInt 8080); (name, VString "")]),
     ["PORT"]).
Proof.
  intros name. etransitivity.
  - apply (Parse_succeeds_iff closedLibs {["PORT" := "8080"]}).
    constructor; [| constructor; [| constructor]].
    + intros _. split; [intros Hc; discriminate Hc |].
      intros _. exists "8080". split; vm_compute; reflexivity.
    + intros Hc. discriminate Hc.
  - vm_compute. reflexivity.
Defined.

Lemma Parse_error_kinds_witness :
  parseError closedLibs {["A" := "x"]} (missingKey "B").
Proof.
  apply (Parse_error_kinds closedLibs {["A" := "x"]}
           (PtrTo TStruct (VStruct [(envField "A" TInt "A", VInt 0);
                                    (envField "B" TInt "B", VInt 0)]))
           (missingKey "B")
           (PtrTo TStruct (VStruct [(envField "A" TInt "A", VInt 0);
                                    (envField "B" TInt "B", VInt 0)]))
           ["A"; "B"]).
  vm_compute. reflexivity.
Defined.

Lemma embedded_non_struct_fails_witness :
  let Base := mkField "Base" (TOther "*Base") "BASE" EmptyString true true in
  let fields := [(envField "A" TInt "A", VInt 0); (Base, VOther "nil");
                 (envField "C" TInt "C", VInt 0)] in
  Parse closedLibs (list_to_map [("A", "1"); ("BASE", "x"); ("C", "3")])
    (PtrTo TStruct (VStruct fields))
  = (Returns (Some invalidTarget),
     PtrTo TStruct (VStruct [(envField "A" TInt "A", VInt 1); (Base, VOther "nil");
                             (envField "C" TInt "C", VInt 0)]),
     ["A"]).
Proof.
  intros Base fields. etransitivity.
  - apply (embedded_non_struct_fails closedLibs
             (list_to_map [("A", "1"); ("BASE", "x"); ("C", "3")])
             [(envField "A" TInt "A", VInt 0)] Base (VOther "nil")
             [(envField "C" TInt "C", VInt 0)]);
      try (vm_compute; reflexivity).
    discriminate.
  - vm_compute. reflexivity.
Defined.

(** *** Parsing twice *)

Section Twice.

Context (L : Libs) (E : gmap string string).

(** Without a [json] or [xml] decoder the conversion does not read the
    field: it either stores a value that the raw string decides, or leaves
    the field as it is, and what it returns is decided by the raw string. *)
Lemma setValueFromEnv_overwrites fieldType val :
  plainField fieldType = true ->
  exists (stored : option value) (r : outcome), forall field,
    setValueFromEnv L field fieldType val
    = (match stored with Some v => v | None => field end, r).
Proof.
  intros Hplain. unfold setValueFromEnv, setSlice.
  destruct (Type_ fieldType) eqn:Hty;
    try (match goal with
         | |- context [match ?call with _ => _ end] =>
             destruct call as [? [? |]] + destruct call
         end;
         (exists None + eexists (Some _)); eexists; intros field; reflexivity);
    try ((exists None + eexists (Some _)); eexists; intros field; reflexivity).
  all: unfold plainField, builtin in Hplain; rewrite Hty in Hplain; simpl in Hplain.
  all: apply negb_true_iff, orb_false_iff in Hplain as [Hjson Hxml]; rewrite Hjson, Hxml.
  all: destruct (String.eqb (Tag_encoding fieldType) "form");
    [destruct (url.ParseQuery val) as [? [? |]];
     (exists None + eexists (Some _)); eexists; intros field; reflexivity |].
  all: destruct (String.eqb (Tag_encoding fieldType) "base64");
    [destruct (base64_DecodeString L val) as [? [? |]];
     (exists None + eexists (Some _)); eexists; intros field; reflexivity |].
  all: exists None; eexists; intros field; reflexivity.
Qed.

Lemma parseFields_twice fields :
  Forall (fun f => plainTree f.2 = true ->
            forall t r v' keys,
              ParseElem L E t f.2 = (r, v', keys) -> ParseElem L E t v' = (r, v', keys)) fields ->
  forallb (fun f => plainField f.1 && plainTree f.2) fields = true ->
  forall errs fl fields' keys,
    parseFields L E (ParseElem L E) fields errs = (fl, fields', keys) ->
    parseFields L E (ParseElem L E) fields' errs = (fl, fields', keys).
Proof.
  induction 1 as [| [fieldType field] fields Hf Hfs IH];
    intros Hplain errs fl fields' keys Hwalk.
  { simpl in Hwalk. injection Hwalk as <- <- <-. reflexivity. }
  simpl in Hplain, Hf. apply andb_true_iff in Hplain as [Hfield Hrest].
  apply andb_true_iff in Hfield as [Hpf Hpt]. specialize (IH Hrest). specialize (Hf Hpt).
  destruct (CanSet fieldType) eqn:Hset.
  2:{ rewrite parseFields_unsettable in Hwalk by exact Hset.
      destruct (parseFields L E _ fields errs) as [[fl0 rest'] keys'] eqn:Hwalk'.
      simpl in Hwalk. injection Hwalk as <- <- <-.
      rewrite parseFields_unsettable by exact Hset. rewrite (IH _ _ _ _ Hwalk'). reflexivity. }
  destruct (nested fieldType) eqn:Hnest.
  { rewrite parseFields_nested in Hwalk by assumption.
    destruct (ParseElem L E (Type_ fieldType) field) as [[r field'] keys0] eqn:Hrec.
    apply Hf in Hrec.
    destruct r as [[e |] |].
    - injection Hwalk as <- <- <-.
      rewrite parseFields_nested by assumption. rewrite Hrec. reflexivity.
    - destruct (parseFields L E _ fields errs) as [[fl0 rest'] keys'] eqn:Hwalk'.
      simpl in Hwalk. injection Hwalk as <- <- <-.
      rewrite parseFields_nested by assumption. rewrite Hrec, (IH _ _ _ _ Hwalk'). reflexivity.
    - injection Hwalk as <- <- <-.
      rewrite parseFields_nested by assumption. rewrite Hrec. reflexivity. }
  destruct (skipKey (Tag_env fieldType)) eqn:Hskip.
  { rewrite parseFields_skipped in Hwalk by assumption.
    destruct (parseFields L E _ fields errs) as [[fl0 rest'] keys'] eqn:Hwalk'.
    simpl in Hwalk. injection Hwalk as <- <- <-.
    rewrite parseFields_skipped by assumption. rewrite (IH _ _ _ _ Hwalk'). reflexivity. }
  destruct (E !! Tag_env fieldType) as [val |] eqn:Hlook.
  2:{ rewrite parseFields_missing in Hwalk by assumption. injection Hwalk as <- <- <-.
      apply parseFields_missing; assumption. }
  rewrite (parseFields_leaf L E _ _ _ _ _ val) in Hwalk by assumption.
  destruct (setValueFromEnv_overwrites fieldType val Hpf) as (stored & r & Hover).
  rewrite Hover in Hwalk.
  assert (Hagain : setValueFromEnv L (match stored with Some v => v | None => field end)
                     fieldType val
                   = (match stored with Some v => v | None => field end, r)).
  { rewrite Hover. destruct stored; reflexivity. }
  destruct r as [[err |] |].
  - destruct (parseFields L E _ fields _) as [[fl0 rest'] keys'] eqn:Hwalk'.
    simpl in Hwalk. injection Hwalk as <- <- <-.
    rewrite (parseFields_leaf L E _ _ _ _ _ val) by assumption.
    rewrite Hagain, (IH _ _ _ _ Hwalk'). reflexivity.
  - destruct (parseFields L E _ fields _) as [[fl0 rest'] keys'] eqn:Hwalk'.
    simpl in Hwalk. injection Hwalk as <- <- <-.
    rewrite (parseFields_leaf L E _ _ _ _ _ val) by assumption.
    rewrite Hagain, (IH _ _ _ _ Hwalk'). reflexivity.
  - injection Hwalk as <- <- <-.
    rewrite (parseFields_leaf L E _ _ _ _ _ val) by assumption.
    rewrite Hagain. reflexivity.
Qed.

Lemma ParseElem_twice v :
  plainTree v = true ->
  forall t r v' keys,
    ParseElem L E t v = (r, v', keys) -> ParseElem L E t v' = (r, v', keys).
Proof.
  induction v as [v IH] using value_tree_ind. intros Hplain t r v' keys.
  rewrite (ParseElem_unfold L E t v), (ParseElem_unfold L E t v').
  destruct (Kind_of t); try (intros [= <- <- <-]; reflexivity).
  destruct v; try (intros [= <- <- <-]; reflexivity).
  specialize (IH fields eq_refl). simpl in Hplain.
  destruct (parseFields L E (ParseElem L E) fields []) as [[fl fields'] keys'] eqn:Hwalk.
  intros [= <- <- <-].
  rewrite (parseFields_twice fields IH Hplain _ _ _ _ Hwalk). reflexivity.
Qed.

(** X9. Parsing twice is parsing once.  Where no field is handed to a
    [json] or [xml] decoder, a second call of [Parse] on what the first
    call left behind, in the same environment, returns what the first
    returned, looks up the same keys and changes nothing. *)
Theorem Parse_twice t v r tg' keys :
  plainTree v = true ->
  Parse L E (PtrTo t v) = (r, tg', keys) ->
  Parse L E tg' = (r, tg', keys).
Proof.
  intros Hplain. unfold Parse at 1.
  destruct (ParseElem L E t v) as [[r0 v'] keys0] eqn:Hrun.
  intros [= <- <- <-]. unfold Parse.
  rewrite (ParseElem_twice v Hplain _ _ _ _ Hrun). reflexivity.
Qed.

End Twice.

Lemma Parse_twice_witness :
  let N v := VStruct [(envField "B" TInts "B", VInts v)] in
  let after a n := PtrTo TStruct (VStruct [(envField "A" TInt "A", VInt a);
                                           (envField "N" TStruct "", N n);
                                           (envField "C" TInt "C", VInt 0)]) in
  Parse closedLibs (list_to_map [("A", "1"); ("B", "2, 3")]) (after 1 [2; 3])
  = (Returns (Some (missingKey "C")), after 1 [2; 3], ["A"; "B"; "C"]).
Proof.
  intros N after.
  apply (Parse_twice closedLibs (list_to_map [("A", "1"); ("B", "2, 3")]) TStruct
           (VStruct [(envField "A" TInt "A", VInt 0); (envField "N" TStruct "", N []);
                     (envField "C" TInt "C", VInt 0)])).
  - reflexivity.
  - vm_compute. reflexivity.
Defined.

(** *** The keys looked up *)

Section Keys.

Context (L : Libs) (E : gmap string string).

Lemma parseFields_keys fields :
  Forall (fun f => forall t k, In k (ParseElem L E t f.2).2 -> skipKey k = false) fields ->
  forall errs k,
    In k (parseFields L E (ParseElem L E) fields errs).2 -> skipKey k = false.
Proof.
  induction 1 as [| [fieldType field] fields Hf Hfs IH]; intros errs k Hk; [destruct Hk |].
  simpl in Hf.
  destruct (CanSet fieldType) eqn:Hset.
  2:{ rewrite parseFields_unsettable, carryOn_keys in Hk by exact Hset. eapply IH, Hk. }
  destruct (nested fieldType) eqn:Hnest.
  { rewrite parseFields_nested in Hk by assumption.
    specialize (Hf (Type_ fieldType) k).
    destruct (ParseElem L E (Type_ fieldType) field) as [[r field'] keys].
    destruct r as [[e |] |]; simpl in Hf; [apply Hf, Hk | | apply Hf, Hk].
    rewrite carryOn_keys in Hk. apply in_app_or in Hk as [Hk | Hk]; [apply Hf, Hk | eapply IH, Hk]. }
  destruct (skipKey (Tag_env fieldType)) eqn:Hskip.
  { rewrite parseFields_skipped, carryOn_keys in Hk by assumption. eapply IH, Hk. }
  destruct (E !! Tag_env fieldType) as [val |] eqn:Hlook.
  - rewrite (parseFields_leaf L E _ _ _ _ _ val) in Hk by assumption.
    destruct (setValueFromEnv L field fieldType val) as [field' [[err |] |]];
      try rewrite carryOn_keys in Hk; destruct Hk as [<- | Hk];
      try exact Hskip; try (eapply IH, Hk); destruct Hk.
  - rewrite parseFields_missing in Hk by assumption.
    destruct Hk as [<- | []]. exact Hskip.
Qed.

Lemma ParseElem_keys v : forall t k,
  In k (ParseElem L E t v).2 -> skipKey k = false.
Proof.
  induction v as [v IH] using value_tree_ind. intros t k.
  rewrite ParseElem_unfold.
  destruct (Kind_of t); try (intros []).
  destruct v; try (intros []).
  specialize (IH fields eq_refl).
  pose proof (parseFields_keys fields IH [] k) as Hkeys.
  destruct (parseFields L E (ParseElem L E) fields []) as [[fl fields'] keys]. exact Hkeys.
Qed.

(** X10. [Parse] never looks up the empty key or the key ["-"]: a field
    whose [env] tag is absent or ["-"] costs no lookup, in the struct and
    in every struct nested in it. *)
Theorem skip_keys_never_looked_up tg k :
  In k (Parse L E tg).2 -> k <> EmptyString /\ k <> "-".
Proof.
  intros Hk.
  assert (Hskip : skipKey k = false).
  { destruct tg as [t v | t | t v]; try destruct Hk.
    apply (ParseElem_keys v t k). unfold Parse in Hk.
    destruct (ParseElem L E t v) as [[r v'] keys]. exact Hk. }
  unfold skipKey in Hskip. apply orb_false_iff in Hskip as [H1 H2].
  split; intros ->; discriminate.
Qed.

End Keys.

Lemma skip_keys_never_looked_up_witness :
  "PORT" <> EmptyString /\ "PORT" <> "-".
Proof.
  apply (skip_keys_never_looked_up closedLibs (list_to_map [("-", "x"); ("PORT", "1")])
           (PtrTo TStruct (VStruct [(envField "Name" TString "-", VString "");
                                    (envField "Port" TInt "PORT", VInt 0)]))).
  vm_compute. left. reflexivity.
Defined.
